(** * Inline spell checker: candidate generation, ranking and the
      correction service of the background script.

    The development embeds the background script of the extension
    (the second script of [TECHNICAL_GUIDE.md]: [scoreWord],
    [editDistanceOne], [rankCandidates], [parseCustomWords], [loadModel],
    [loadOptions], [suggestCorrections] and the [SPELLCHECK] message
    listener) and proves the properties its specification states.

    Conventions of the embedding:
    - a JavaScript string is the list of its UTF-16 code units ([list N]);
    - a JavaScript number is a real number, an infinity or NaN: rounding
      is left out, [Math.log] is [ln] on the positive numbers, minus
      infinity at 0 and NaN below;
    - a read [table[key]] of an object finds the properties that every
      object inherits, besides the entries of the table;
    - [Array.prototype.sort] is a function of the runtime: it permutes the
      array, and what is known of the order is what ECMAScript promises for
      a consistent comparator;
    - a [Set] is the list of its elements in insertion order when it is
      iterated, and a [gset] when only [has] is used;
    - the entries of a table are a [gmap]: its own properties;
    - an [async] function is run to completion: it returns the new state
      of the script together with the settled state of its promise. *)

From Stdlib Require Import Reals Lra Lia Ascii String Sorted.
From stdpp Require Import base option list gmap sets.

Open Scope R_scope.
Open Scope nat_scope.
Open Scope list_scope.

(** ** Strings *)

Abbreviation jsstring := (list N).

(** A string literal of the script whose characters are all ASCII. *)
Definition str (s : string) : jsstring :=
  map N_of_ascii (list_ascii_of_string s).

(** [s.slice(i)] and [s.slice(i, j)] for non-negative indices. *)
Definition slice_from (i : nat) (s : jsstring) : jsstring := drop i s.
Definition slice (i j : nat) (s : jsstring) : jsstring := take (j - i) (drop i s).

(** [s[k]] inside a template literal: the one-unit string at index [k], or
    the text of [undefined] when [k] is out of range. *)
Definition at_index (k : nat) (s : jsstring) : jsstring :=
  match s !! k with
  | Some c => [c]
  | None => str "undefined"
  end.

(** Truthiness of a string: a string is truthy when it is not empty. *)
Definition truthy (s : jsstring) : bool :=
  match s with [] => false | _ => true end.

(** ** Numbers and property reads *)

(** A JavaScript number, up to rounding. *)
Inductive number : Type :=
  | Finite (r : R)
  | PosInf
  | NegInf
  | NaN.

Definition number_add (a b : number) : number :=
  match a, b with
  | NaN, _ | _, NaN => NaN
  | Finite x, Finite y => Finite (x + y)
  | PosInf, NegInf | NegInf, PosInf => NaN
  | PosInf, _ | _, PosInf => PosInf
  | NegInf, _ | _, NegInf => NegInf
  end.

Definition number_sub (a b : number) : number :=
  match a, b with
  | NaN, _ | _, NaN => NaN
  | Finite x, Finite y => Finite (x - y)
  | PosInf, PosInf | NegInf, NegInf => NaN
  | PosInf, _ | _, NegInf => PosInf
  | NegInf, _ | _, PosInf => NegInf
  end.

Definition is_positive (v : number) : Prop :=
  match v with
  | Finite r => (0 < r)%R
  | PosInf => True
  | _ => False
  end.

Definition is_negative (v : number) : Prop :=
  match v with
  | Finite r => (r < 0)%R
  | NegInf => True
  | _ => False
  end.

Definition is_zero (v : number) : Prop := v = Finite 0.

Definition positive (v : number) : bool :=
  match v with
  | Finite r => if Rlt_dec 0 r then true else false
  | PosInf => true
  | _ => false
  end.

(** What a read of a table of numbers gives: a number, or one of the
    functions and objects that every object inherits. *)
Inductive jsvalue : Type :=
  | Number_ (r : R)
  | Inherited.

(** [Math.log(v)]; an inherited function or object converts to NaN. *)
Definition Math_log (v : jsvalue) : number :=
  match v with
  | Number_ r =>
      if Rlt_dec 0 r then Finite (ln r)
      else if Rlt_dec r 0 then NaN
      else NegInf
  | Inherited => NaN
  end.

(** The names of the properties of [Object.prototype]. *)
Definition Object_prototype_names : list jsstring :=
  [str "constructor"; str "hasOwnProperty"; str "isPrototypeOf";
   str "propertyIsEnumerable"; str "toLocaleString"; str "toString";
   str "valueOf"; str "__proto__"; str "__defineGetter__";
   str "__defineSetter__"; str "__lookupGetter__"; str "__lookupSetter__"].

(** [table[key]] for a table parsed from JSON: the entry of the table, else
    the inherited property, else [undefined] ([None]). *)
Definition get_property (table : gmap jsstring R) (key : jsstring)
    : option jsvalue :=
  match table !! key with
  | Some r => Some (Number_ r)
  | None =>
      if decide (key ∈ Object_prototype_names) then Some Inherited else None
  end.

(** A consistent comparator for the elements of an array, as ECMAScript
    defines it: the comparator never gives NaN, and the relations "is 0",
    "is below 0" and "is above 0" that it gives are an equivalence and two
    transitive relations. *)
Definition consistent_comparator {A} (compare : A -> A -> number)
    (l : list A) : Prop :=
  (forall a b, In a l -> In b l -> compare a b <> NaN)
  /\ (forall a, In a l -> is_zero (compare a a))
  /\ (forall a b, In a l -> In b l ->
        is_zero (compare a b) -> is_zero (compare b a))
  /\ (forall a b c, In a l -> In b l -> In c l ->
        is_zero (compare a b) -> is_zero (compare b c) ->
        is_zero (compare a c))
  /\ (forall a b c, In a l -> In b l -> In c l ->
        is_negative (compare a b) -> is_negative (compare b c) ->
        is_negative (compare a c))
  /\ (forall a b c, In a l -> In b l -> In c l ->
        is_positive (compare a b) -> is_positive (compare b c) ->
        is_positive (compare a c)).

(** A sort by insertion: stable, an element goes behind another one only
    where [compare] is above 0 on the two. *)
Fixpoint sort_insert {A} (compare : A -> A -> number) (x : A) (l : list A)
    : list A :=
  match l with
  | [] => [x]
  | y :: l' =>
      if positive (compare x y) then y :: sort_insert compare x l' else x :: l
  end.

Definition insertion_sort {A} (compare : A -> A -> number) (l : list A)
    : list A :=
  foldr (sort_insert compare) [] l.

(** The functions of the JavaScript runtime that the script calls and that
    have no source in the repository: [toLowerCase], and
    [array.sort(compare)], of which every implementation returns the
    elements of the array in some order. *)
Class Runtime := {
  toLowerCase : jsstring -> jsstring;
  toLowerCase_empty : toLowerCase [] = [];
  toLowerCase_idemp : forall s, toLowerCase (toLowerCase s) = toLowerCase s;
  array_sort : forall A : Type, (A -> A -> number) -> list A -> list A;
  array_sort_perm : forall A (compare : A -> A -> number) (l : list A),
    array_sort A compare l ≡ₚ l
}.
Arguments array_sort {_} {A} compare l.
Arguments array_sort_perm {_} {A} compare l.

(** What ECMAScript promises of [array.sort(compare)] when [compare] is a
    consistent comparator for the elements: no element of the result is
    below an element that comes before it. *)
Definition sort_contract `{Runtime} : Prop :=
  forall (A : Type) (compare : A -> A -> number) (l : list A),
    consistent_comparator compare l ->
    StronglySorted (fun x y => ~ is_negative (compare y x))
      (array_sort compare l).

(** A runtime whose [toLowerCase] covers Basic Latin and the Latin-1
    Supplement: [A]-[Z] and [U+00C0]-[U+00DE] (without the multiplication
    sign [U+00D7]) move up by 32, every other code unit is unchanged. It
    Its sort is the sort by insertion. It is used to run the script on
    concrete inputs. *)
Definition lower_unit (c : N) : N :=
  if ((65 <=? c) && (c <=? 90))%N then (c + 32)%N
  else if ((192 <=? c) && (c <=? 222) && negb (c =? 215))%N then (c + 32)%N
  else c.

Definition latin1 : Runtime.
Proof.
  refine {| toLowerCase := map lower_unit;
            array_sort := @insertion_sort |}; [reflexivity| |].
  - intros s. rewrite map_map. apply map_ext. intros c. unfold lower_unit.
    destruct (N.leb_spec 65 c), (N.leb_spec c 90), (N.leb_spec 192 c),
      (N.leb_spec c 222), (N.eqb_spec c 215); simpl; try lia;
    repeat match goal with
           | |- context [(?a <=? ?b)%N] => destruct (N.leb_spec a b); simpl
           | |- context [(?a =? ?b)%N] => destruct (N.eqb_spec a b); simpl
           end; lia.
  - intros A compare l. induction l as [|x l IH]; simpl; [reflexivity|].
    rewrite <- IH at 2. generalize (insertion_sort compare l). intros k.
    induction k as [|y k IHk]; simpl; [reflexivity|].
    destruct (positive (compare x y)); [|reflexivity].
    rewrite IHk. apply Permutation_swap.
Defined.

(** ** Bigram scoring *)

Definition DEFAULT_BIGRAM_PENALTY : R := (-1.5)%R.

Section Scoring.
Context `{Runtime}.

Definition scoreWord (word : jsstring) (bigramScores : gmap jsstring R) : R :=
  let normalized := toLowerCase word in
  if length normalized <? 2 then 0%R
  else
    fold_left
      (fun score i =>
         let bigram := slice i (i + 2) normalized in
         (score + default DEFAULT_BIGRAM_PENALTY (bigramScores !! bigram))%R)
      (seq 0 (length normalized - 1)) 0%R.

End Scoring.

(** The bigram log score as the specification words it: the adjacent
    two-character windows of the word, and the sum of their table entries
    with the penalty for a window that has none. *)
Fixpoint windows (s : jsstring) : list jsstring :=
  match s with
  | a :: (b :: _) as t => [a; b] :: windows t
  | _ => []
  end.

Definition window_score (bigramScores : gmap jsstring R) (w : jsstring) : R :=
  match bigramScores !! w with
  | Some v => v
  | None => (-1.5)%R
  end.

Fixpoint Rsum (l : list R) : R :=
  match l with
  | [] => 0%R
  | x :: l' => (x + Rsum l')%R
  end.

Definition bigramLogScore_spec (s : jsstring) (bigramScores : gmap jsstring R) : R :=
  Rsum (map (window_score bigramScores) (windows s)).

(** ** Candidate generation *)

Definition letters : jsstring :=
  str "abcdefghijklmnopqrstuvwxyz"
  ++ [225; 224; 226; 227; 228; 233; 234; 235; 237; 239;
      243; 244; 245; 246; 250; 252; 231]%N.

(** [letters.split('')]: the one-unit strings of the alphabet. *)
Definition letters_split : list jsstring := map (fun c => [c]) letters.

(** [new Set(array)]: the elements in the order of their first occurrence. *)
Definition Set_add (s : list jsstring) (x : jsstring) : list jsstring :=
  if decide (x ∈ s) then s else s ++ [x].

Definition new_Set (l : list jsstring) : list jsstring := fold_left Set_add l [].

Definition splits (word : jsstring) : list (jsstring * jsstring) :=
  map (fun i => (slice 0 i word, slice_from i word)) (seq 0 (S (length word))).

Definition deletes (word : jsstring) : list jsstring :=
  map (fun '(left_, right_) => left_ ++ slice_from 1 right_)
    (List.filter (fun '(_, right_) => truthy right_) (splits word)).

Definition transposes (word : jsstring) : list jsstring :=
  map (fun '(left_, right_) =>
         left_ ++ at_index 1 right_ ++ at_index 0 right_ ++ slice_from 2 right_)
    (List.filter (fun '(_, right_) => 1 <? length right_) (splits word)).

Definition replaces (word : jsstring) : list jsstring :=
  flat_map (fun '(left_, right_) =>
              map (fun char => left_ ++ char ++ slice_from 1 right_) letters_split)
    (List.filter (fun '(_, right_) => truthy right_) (splits word)).

Definition inserts (word : jsstring) : list jsstring :=
  flat_map (fun '(left_, right_) =>
              map (fun char => left_ ++ char ++ right_) letters_split)
    (splits word).

Definition editDistanceOne (word : jsstring) : list jsstring :=
  new_Set (deletes word ++ transposes word ++ replaces word ++ inserts word).

(** ** Ranking *)

Record Model := {
  dictionary : gset jsstring;
  frequencies : gmap jsstring R;
  bigramScores : gmap jsstring R
}.

Record Scored := { candidate : jsstring; score : number }.

(** [set.has(x)]. *)
Definition has (s : gset jsstring) (x : jsstring) : bool := bool_decide (x ∈ s).

Section Ranking.
Context `{Runtime}.

(** One turn of the loop over the candidates: the array [scored] after the
    candidate has been looked at. *)
Definition rank_step (model : Model) (customWords : gset jsstring)
    (scored : list Scored) (candidate : jsstring) : list Scored :=
  let isKnown := has (dictionary model) candidate || has customWords candidate in
  if negb isKnown then scored
  else
    let frequency :=
      default (Number_ 1) (get_property (frequencies model) candidate) in
    let score := scoreWord candidate (bigramScores model) in
    scored ++ [{| candidate := candidate;
                  score := number_add (Finite score) (Math_log frequency) |}].

Definition rank_scored (candidates : list jsstring) (model : Model)
    (customWords : gset jsstring) : list Scored :=
  fold_left (rank_step model customWords) candidates [].

Definition rankCandidates (token : jsstring) (candidates : list jsstring)
    (model : Model) (customWords : gset jsstring) : list jsstring :=
  map candidate
    (take 5
       (array_sort (fun a b => number_sub (score b) (score a))
          (rank_scored candidates model customWords))).

(** The frequency the specification gives a candidate: its entry in the
    table, and 1 without an entry. *)
Definition frequency_of (model : Model) (candidate : jsstring) : R :=
  match frequencies model !! candidate with
  | Some f => f
  | None => 1%R
  end.

(** The score the specification gives a candidate: its bigram log score
    plus the logarithm of its frequency. *)
Definition spec_score (model : Model) (candidate : jsstring) : number :=
  number_add (Finite (scoreWord candidate (bigramScores model)))
    (Math_log (Number_ (frequency_of model candidate))).

(** The score the ranker gives a candidate. *)
Definition candidate_score (model : Model) (candidate : jsstring) : number :=
  number_add (Finite (scoreWord candidate (bigramScores model)))
    (Math_log (default (Number_ 1)
                 (get_property (frequencies model) candidate))).

(** The score of a word that no table knows: the penalty for each of
    its windows and the logarithm of the frequency 1. *)
Definition default_score (candidate : jsstring) : R :=
  (Rsum (map (fun _ => (-1.5)%R) (windows (toLowerCase candidate))) + ln 1)%R.

(** A candidate whose read of the frequency gives a positive number or
    nothing: its score is a finite number. *)
Definition well_scored (model : Model) (candidate : jsstring) : Prop :=
  match frequencies model !! candidate with
  | Some f => (0 < f)%R
  | None => candidate ∉ Object_prototype_names
  end.

(** Two finite numbers in order. *)
Definition finite_le (u v : number) : Prop :=
  exists x y, u = Finite x /\ v = Finite y /\ (x <= y)%R.

Definition scored_of (model : Model) (c : jsstring) : Scored :=
  {| candidate := c; score := candidate_score model c |}.

Definition isKnown (model : Model) (customWords : gset jsstring)
    (candidate : jsstring) : bool :=
  has (dictionary model) candidate || has customWords candidate.

End Ranking.

(** ** Options and custom words *)

Record Options := {
  enabled : bool;
  language : jsstring;
  customWords : jsstring;
  allowlist : jsstring
}.

Definition defaultOptions : Options :=
  {| enabled := true; language := str "en-US";
     customWords := []; allowlist := [] |}.

(** [s.split(',')] for a one-unit separator. *)
Fixpoint split_on (sep : N) (s : jsstring) : list jsstring :=
  match s with
  | [] => [[]]
  | c :: s' =>
      if (c =? sep)%N then [] :: split_on sep s'
      else match split_on sep s' with
           | [] => [[c]]
           | w :: ws => (c :: w) :: ws
           end
  end.

(** The white space and line terminator code units that [trim] removes. *)
Definition is_space (c : N) : bool :=
  ((c =? 9) || (c =? 10) || (c =? 11) || (c =? 12) || (c =? 13) || (c =? 32)
   || (c =? 160) || (c =? 5760) || ((8192 <=? c) && (c <=? 8202))
   || (c =? 8232) || (c =? 8233) || (c =? 8239) || (c =? 8287)
   || (c =? 12288) || (c =? 65279))%N.

Fixpoint trim_start (s : jsstring) : jsstring :=
  match s with
  | c :: s' => if is_space c then trim_start s' else s
  | [] => []
  end.

Definition trim (s : jsstring) : jsstring :=
  rev (trim_start (rev (trim_start s))).

Section CustomWords.
Context `{Runtime}.

Definition parseCustomWords_list (customWords : jsstring) : list jsstring :=
  List.filter truthy
    (map (fun word => toLowerCase (trim word)) (split_on 44 customWords)).

Definition parseCustomWords (customWords : jsstring) : gset jsstring :=
  list_to_set (parseCustomWords_list customWords).

End CustomWords.

(** ** The script's state and its asynchronous functions *)

(** A promise once it has settled. *)
Inductive Settled (A : Type) : Type :=
  | Fulfilled (a : A)
  | Rejected.
Arguments Fulfilled {A} a.
Arguments Rejected {A}.

(** The parsed JSON of a model file; [data.dictionary] is required, the two
    tables are optional. *)
Record ModelData := {
  data_dictionary : option (list jsstring);
  data_frequencies : option (gmap jsstring R);
  data_bigramScores : option (gmap jsstring R)
}.

(** What the script gets from outside: the outcome of
    [chrome.storage.sync.get(defaultOptions)] and, per URL, the outcome of
    [fetch(url).then(response => response.json())]; [None] is a rejected
    promise. *)
Record Env := {
  storage_sync_get : option Options;
  fetch_json : jsstring -> option ModelData
}.

(** The two mutable bindings of the script. *)
Record State := {
  currentOptions : Options;
  modelCache : gmap jsstring (Settled Model)
}.

Definition Async (A : Type) : Type := State -> State * Settled A.

Definition resolve {A} (a : A) : Async A := fun st => (st, Fulfilled a).
Definition reject {A} : Async A := fun st => (st, Rejected).
Definition await {A B} (p : Async A) (k : A -> Async B) : Async B :=
  fun st =>
    match p st with
    | (st', Fulfilled a) => k a st'
    | (st', Rejected) => (st', Rejected)
    end.

Notation "'let_await' x ':=' p 'in' k" :=
  (await p (fun x => k))
  (at level 10, x name, p at level 100, k at level 200).

Record Verdict := { isCorrect : bool; suggestions : list jsstring }.

Definition assume_correct : Verdict := {| isCorrect := true; suggestions := [] |}.

Definition getModelUrl (language : jsstring) : jsstring :=
  if decide (language = str "pt-PT") then str "models/pt.json"
  else str "models/model.json".

Record Message := { msg_type : jsstring; msg_token : option jsstring }.

Record Response := {
  res_token : option jsstring;
  res_isCorrect : bool;
  res_suggestions : list jsstring
}.

Section Service.
Context `{Runtime}.
Variable env : Env.

Definition build_model (data : ModelData) : Settled Model :=
  match data_dictionary data with
  | None => Rejected
  | Some words =>
      Fulfilled
        {| dictionary := list_to_set (map toLowerCase words);
           frequencies := default ∅ (data_frequencies data);
           bigramScores := default ∅ (data_bigramScores data) |}
  end.

Definition loadModel (language : jsstring) : Async Model := fun st =>
  let modelUrl := getModelUrl language in
  let st' :=
    match modelCache st !! modelUrl with
    | Some _ => st
    | None =>
        let modelPromise :=
          match fetch_json env modelUrl with
          | None => Rejected
          | Some data => build_model data
          end in
        {| currentOptions := currentOptions st;
           modelCache := <[modelUrl := modelPromise]> (modelCache st) |}
    end in
  (st', default Rejected (modelCache st' !! modelUrl)).

Definition loadOptions : Async Options := fun st =>
  match storage_sync_get env with
  | None => (st, Rejected)
  | Some stored =>
      ({| currentOptions := stored; modelCache := modelCache st |},
       Fulfilled stored)
  end.

(** [token] is [None] when the message carries no string there: the call
    [token.toLowerCase()] then throws. *)
(** The initialiser of [options] in [suggestCorrections]:
    [currentOptions.enabled ? currentOptions : await loadOptions()]. *)
Definition get_options : Async Options := fun st =>
  if enabled (currentOptions st) then resolve (currentOptions st) st
  else loadOptions st.

Definition suggestCorrections (token : option jsstring) : Async Verdict :=
  (let_await options := get_options in
   if negb (enabled options) then resolve assume_correct
   else
     let_await model := loadModel (language options) in
     match token with
     | None => reject
     | Some token =>
         let normalized := toLowerCase token in
         let customWords := parseCustomWords (customWords options) in
         if negb (truthy normalized) || has (dictionary model) normalized
            || has customWords normalized
         then resolve assume_correct
         else
           let candidates := editDistanceOne normalized in
           let suggestions :=
             rankCandidates normalized candidates model customWords in
           resolve {| isCorrect := length suggestions =? 0;
                      suggestions := suggestions |}
     end).

(** The answer of the [catch] handler of the listener. *)
Definition fail_open (token : option jsstring) : Response :=
  {| res_token := token; res_isCorrect := true; res_suggestions := [] |}.

(** The [SPELLCHECK] listener: the new state and the response it sends, if
    it sends one. *)
Definition onMessage (message : option Message) (st : State)
    : State * option Response :=
  match message with
  | None => (st, None)
  | Some message =>
      if negb (bool_decide (msg_type message = str "SPELLCHECK")) then (st, None)
      else
        match suggestCorrections (msg_token message) st with
        | (st', Fulfilled result) =>
            (st', Some {| res_token := msg_token message;
                          res_isCorrect := isCorrect result;
                          res_suggestions := suggestions result |})
        | (st', Rejected) => (st', Some (fail_open (msg_token message)))
        end
  end.

(** The words of a model are lowercase, as [loadModel] builds them; the
    cache holds such models only. *)
Definition lowercase_model (model : Model) : Prop :=
  forall w, w ∈ dictionary model -> toLowerCase w = w.

Definition cache_lowercase (st : State) : Prop :=
  forall url model,
    modelCache st !! url = Some (Fulfilled model) -> lowercase_model model.

End Service.

(** ** Concrete runs *)

Definition initial_state : State :=
  {| currentOptions := defaultOptions; modelCache := ∅ |}.

Definition data_of (words : list jsstring) : ModelData :=
  {| data_dictionary := Some words;
     data_frequencies := None;
     data_bigramScores := None |}.

(** A model file with the one word "a", and no stored options. *)
Definition env_a : Env :=
  {| storage_sync_get := None; fetch_json := fun _ => Some (data_of [str "a"]) |}.

(** No model file can be fetched. *)
Definition env_offline : Env :=
  {| storage_sync_get := None; fetch_json := fun _ => None |}.

(** The stored options switch the checker off. *)
Definition options_off : Options :=
  {| enabled := false; language := str "en-US";
     customWords := []; allowlist := [] |}.

Definition env_off : Env :=
  {| storage_sync_get := Some options_off;
     fetch_json := fun _ => Some (data_of [str "a"]) |}.

Definition state_off : State :=
  {| currentOptions := options_off; modelCache := ∅ |}.

(** The custom word "zyx" with the model file of [env_a]. *)
Definition options_zyx : Options :=
  {| enabled := true; language := str "en-US";
     customWords := str "zyx"; allowlist := [] |}.

Definition state_zyx : State :=
  {| currentOptions := options_zyx; modelCache := ∅ |}.

Definition model_a : Model :=
  {| dictionary := list_to_set [str "a"]; frequencies := ∅; bigramScores := ∅ |}.

Definition loaded (options : Options) : State :=
  {| currentOptions := options;
     modelCache := <[str "models/model.json" := Fulfilled model_a]> ∅ |}.

Definition message_helo : Message :=
  {| msg_type := str "SPELLCHECK"; msg_token := Some (str "helo") |}.

(** The word "constructor" is in the dictionary and has no frequency. *)
Definition model_constructor : Model :=
  {| dictionary := {[ str "constructor" ]};
     frequencies := ∅;
     bigramScores := ∅ |}.

(** The custom word "zyx" has the frequency 100 in the model. *)
Definition model_zyx : Model :=
  {| dictionary := ∅;
     frequencies := {[ str "zyx" := 100%R ]};
     bigramScores := ∅ |}.

(** Six one-letter words, all in the dictionary; the first one has the
    frequency 1/2, the other ones have none. *)
Definition six_words : list jsstring := map (fun c => [c]) (str "abcdef").

Definition model_six : Model :=
  {| dictionary := list_to_set six_words;
     frequencies := {[ str "a" := (1 / 2)%R ]};
     bigramScores := ∅ |}.

(** A [SPELLCHECK] message for the token made of one space. *)
Definition message_space : Message :=
  {| msg_type := str "SPELLCHECK"; msg_token := Some (str " ") |}.

(** The verdict that [suggestCorrections] computes from the options, the
    model and the token, once all three are there. *)
Definition verdict_of `{Runtime} (options : Options) (model : Model)
    (token : jsstring) : Verdict :=
  let normalized := toLowerCase token in
  let customWords := parseCustomWords (customWords options) in
  if negb (truthy normalized) || has (dictionary model) normalized
     || has customWords normalized
  then assume_correct
  else
    let suggestions :=
      rankCandidates normalized (editDistanceOne normalized) model customWords in
    {| isCorrect := length suggestions =? 0; suggestions := suggestions |}.

(** The cache of [st'] has every entry of the cache of [st]. *)
Definition cache_extends (st st' : State) : Prop :=
  forall url p, modelCache st !! url = Some p -> modelCache st' !! url = Some p.

(** ** The allowlist of hosts *)

(** [s.endsWith(suffix)]. *)
Definition endsWith (s suffix : jsstring) : bool :=
  (length suffix <=? length s)
  && bool_decide (drop (length s - length suffix) s = suffix).

(** The entries of an allowlist: its lines, trimmed, without the empty
    ones. *)
Definition allowlist_entries (allowlist : jsstring) : list jsstring :=
  List.filter truthy (map trim (split_on 10 allowlist)).

Definition host_matches (hostname entry : jsstring) : bool :=
  bool_decide (hostname = entry) || endsWith hostname (str "." ++ entry).

(** [isAllowedForHost] of the content script. *)
Definition isAllowedForHost (hostname allowlist : jsstring) : bool :=
  if negb (truthy allowlist) then true
  else
    let entries := allowlist_entries allowlist in
    if length entries =? 0 then true
    else existsb (host_matches hostname) entries.

Section Allowlist.
(** [new URL(url).hostname]; [None] when the constructor throws. *)
Variable URL_hostname : jsstring -> option jsstring.

(** [isAllowlisted] of the background script; [url] is [None] for a tab
    without URL. *)
Definition isAllowlisted (url : option jsstring) (allowlist : jsstring) : bool :=
  match url with
  | None => true
  | Some url =>
      if negb (truthy url) then true
      else if negb (truthy allowlist) then true
      else
        match URL_hostname url with
        | None => false
        | Some hostname =>
            let entries := allowlist_entries allowlist in
            if length entries =? 0 then true
            else existsb (host_matches hostname) entries
        end
  end.

End Allowlist.

(** ** The word at the caret of an input *)

Definition is_high_surrogate (c : N) : bool := ((55296 <=? c) && (c <=? 56319))%N.
Definition is_low_surrogate (c : N) : bool := ((56320 <=? c) && (c <=? 57343))%N.

(** The code points of a string, each as its one or two code units, as a
    regular expression with the flag [u] reads them. *)
Fixpoint code_points (s : jsstring) : list jsstring :=
  match s with
  | [] => []
  | h :: rest =>
      match rest with
      | l :: t =>
          if is_high_surrogate h && is_low_surrogate l
          then [h; l] :: code_points t
          else [h] :: code_points rest
      | [] => [[h]]
      end
  end.

Fixpoint take_while {A} (f : A -> bool) (l : list A) : list A :=
  match l with
  | x :: l' => if f x then x :: take_while f l' else []
  | [] => []
  end.

Record InputTarget := {
  selectionStart : option nat;
  value : option jsstring
}.

Record WordData := { word : jsstring; start : nat; end_ : nat }.

(** [target.setRangeText(text, start, end)] on the value of an input. *)
Definition setRangeText (value text : jsstring) (start end_ : nat) : jsstring :=
  take start value ++ text ++ drop end_ value.

Section Words.
(** The property [\p{L}] of a code point. *)
Variable is_letter : jsstring -> bool.

(** [text.match(/[\p{L}]+$/u)] and [text.match(/^[\p{L}]+/u)]: the matched
    text, [None] for [null]. *)
Definition match_letters_end (text : jsstring) : option jsstring :=
  match rev (take_while is_letter (rev (code_points text))) with
  | [] => None
  | run => Some (concat run)
  end.

Definition match_letters_start (text : jsstring) : option jsstring :=
  match take_while is_letter (code_points text) with
  | [] => None
  | run => Some (concat run)
  end.

Definition getWordFromInput (target : InputTarget) : WordData :=
  let position := default 0 (selectionStart target) in
  let value := default [] (value target) in
  let left_ := slice 0 position value in
  let right_ := slice_from position value in
  let leftMatch := match_letters_end left_ in
  let rightMatch := match_letters_start right_ in
  {| word := default [] leftMatch ++ default [] rightMatch;
     start := position - length (default [] leftMatch);
     end_ := position + length (default [] rightMatch) |}.

End Words.

(** The letters of Basic Latin, as a letter test to run the extraction on
    concrete inputs. *)
Definition ascii_letter (cp : jsstring) : bool :=
  match cp with
  | [c] => (((65 <=? c) && (c <=? 90)) || ((97 <=? c) && (c <=? 122)))%N
  | _ => false
  end.

(** An input with the caret inside the second word. *)
Definition target_helo : InputTarget :=
  {| selectionStart := Some 6; value := Some (str "say helo now") |}.

(** ** The first background script *)

Module V1.

Definition letters : jsstring := str "abcdefghijklmnopqrstuvwxyz".

Definition letters_split : list jsstring := map (fun c => [c]) letters.

Definition replaces (word : jsstring) : list jsstring :=
  flat_map (fun '(left_, right_) =>
              map (fun char => left_ ++ char ++ slice_from 1 right_) letters_split)
    (List.filter (fun '(_, right_) => truthy right_) (splits word)).

Definition inserts (word : jsstring) : list jsstring :=
  flat_map (fun '(left_, right_) =>
              map (fun char => left_ ++ char ++ right_) letters_split)
    (splits word).

Definition editDistanceOne (word : jsstring) : list jsstring :=
  new_Set (deletes word ++ transposes word ++ replaces word ++ inserts word).

Section Ranking.
Context `{Runtime}.

Definition rank_step (model : Model) (scored : list Scored)
    (candidate : jsstring) : list Scored :=
  if negb (has (dictionary model) candidate) then scored
  else
    let frequency :=
      default (Number_ 1) (get_property (frequencies model) candidate) in
    let score := scoreWord candidate (bigramScores model) in
    scored ++ [{| candidate := candidate;
                  score := number_add (Finite score) (Math_log frequency) |}].

Definition rankCandidates (token : jsstring) (candidates : list jsstring)
    (model : Model) : list jsstring :=
  map candidate
    (take 5
       (array_sort (fun a b => number_sub (score b) (score a))
          (fold_left (rank_step model) candidates []))).

End Ranking.

End V1.

(** ** Bigram scoring: proofs *)

Lemma windows_length (s : jsstring) : length (windows s) = length s - 1.
Proof.
  induction s as [|a [|b t] IH]; simpl in *; try reflexivity.
  rewrite IH. lia.
Qed.

Lemma windows_slices (s : jsstring) :
  map (fun i => slice i (i + 2) s) (seq 0 (length s - 1)) = windows s.
Proof.
  induction s as [|a [|b t] IH]; try reflexivity.
  replace (length (a :: b :: t) - 1) with (S (length (b :: t) - 1))
    by (simpl; lia).
  rewrite <- cons_seq. cbn [map]. rewrite <- seq_shift, map_map.
  change (windows (a :: b :: t)) with ([a; b] :: windows (b :: t)).
  rewrite <- IH. f_equal.
Qed.

Lemma fold_left_Rplus {A} (f : A -> R) (l : list A) (a : R) :
  fold_left (fun acc x => (acc + f x)%R) l a = (a + Rsum (map f l))%R.
Proof.
  revert a. induction l as [|x l IH]; intros a; simpl.
  - lra.
  - rewrite IH. lra.
Qed.

Section ScoringProofs.
Context `{Runtime}.

Lemma scoreWord_sum (word : jsstring) (bs : gmap jsstring R) :
  scoreWord word bs = bigramLogScore_spec (toLowerCase word) bs.
Proof.
  unfold scoreWord, bigramLogScore_spec.
  destruct (Nat.ltb_spec (length (toLowerCase word)) 2) as [Hlt|Hge].
  - destruct (toLowerCase word) as [|a [|b t]]; simpl in *; try lra; lia.
  - rewrite (fold_left_Rplus
      (fun i => default DEFAULT_BIGRAM_PENALTY
                  (bs !! slice i (i + 2) (toLowerCase word)))).
    rewrite <- windows_slices, map_map.
    rewrite Rplus_0_l. f_equal.
Qed.

(** C2: for a lowercased word of length n >= 2 the bigram log score is the
    sum, over its n - 1 adjacent two-character windows, of the table entry
    of the window, a window without entry counting -1.5; for a word of
    length < 2 it is 0; the word "xq" without a recorded bigram scores
    exactly -1.5. *)
Theorem scoreWord_bigram_sum (word : jsstring) (bs : gmap jsstring R)
    (Hlower : toLowerCase word = word) :
  (2 <= length word ->
     scoreWord word bs = Rsum (map (window_score bs) (windows word))
     /\ length (windows word) = length word - 1
     /\ (forall w, w ∈ windows word -> bs !! w = None ->
           window_score bs w = (-1.5)%R))
  /\ (length word < 2 -> scoreWord word bs = 0%R)
  /\ (word = str "xq" -> bs !! str "xq" = None ->
        scoreWord word bs = (-1.5)%R).
Proof.
  pose proof (scoreWord_sum word bs) as Hs. rewrite Hlower in Hs.
  split; [|split].
  - intros _. split; [exact Hs|]. split; [apply windows_length|].
    intros w _ Hw. unfold window_score. rewrite Hw. reflexivity.
  - intros Hlt. rewrite Hs. unfold bigramLogScore_spec.
    destruct word as [|a [|b t]]; simpl in *; try reflexivity; lia.
  - intros -> Hxq. rewrite Hs. unfold bigramLogScore_spec.
    change (windows (str "xq")) with [str "xq"]. cbn [map Rsum].
    unfold window_score. rewrite Hxq. lra.
Qed.

End ScoringProofs.

Lemma scoreWord_bigram_sum_witness :
  @toLowerCase latin1 (str "xq") = str "xq"
  /\ @scoreWord latin1 (str "xq") ∅ = (-1.5)%R.
Proof.
  split; [reflexivity|].
  apply (@scoreWord_bigram_sum latin1 (str "xq") ∅); reflexivity.
Defined.

(** ** Ranking: proofs *)

Lemma positive_spec (v : number) : positive v = true <-> is_positive v.
Proof.
  destruct v as [r| | |]; simpl.
  - destruct (Rlt_dec 0 r); split; auto; discriminate.
  - split; auto.
  - split; [discriminate|contradiction].
  - split; [discriminate|contradiction].
Qed.

Lemma number_sign (v : number) :
  v <> NaN -> is_negative v \/ is_zero v \/ is_positive v.
Proof.
  unfold is_zero. destruct v as [r| | |]; simpl; intros Hv.
  - destruct (Rtotal_order r 0) as [Hlt|[->|Hgt]]; auto.
  - auto.
  - auto.
  - contradiction.
Qed.

Lemma sign_exclusive (v : number) :
  ~ (is_negative v /\ is_positive v)
  /\ ~ (is_zero v /\ is_positive v)
  /\ ~ (is_zero v /\ is_negative v).
Proof.
  unfold is_zero. destruct v as [r| | |]; simpl;
    (split; [|split]); intros [H1 H2];
    try discriminate; try contradiction; try lra;
    injection H1 as ->; lra.
Qed.

Lemma sort_insert_perm {A} (compare : A -> A -> number) (x : A) (l : list A) :
  sort_insert compare x l ≡ₚ x :: l.
Proof.
  induction l as [|y l IH]; simpl; [reflexivity|].
  destruct (positive (compare x y)); [|reflexivity].
  rewrite IH. apply Permutation_swap.
Qed.

Lemma insertion_sort_perm {A} (compare : A -> A -> number) (l : list A) :
  insertion_sort compare l ≡ₚ l.
Proof.
  induction l as [|x l IH]; simpl; [reflexivity|].
  rewrite sort_insert_perm, IH. reflexivity.
Qed.

Section Consistent.
Context {A : Type} (compare : A -> A -> number) (S : list A).
Hypothesis Hcons : consistent_comparator compare S.

Lemma consistent_above_below (a b : A) :
  In a S -> In b S -> is_positive (compare a b) -> is_negative (compare b a).
Proof.
  destruct Hcons as (Hnan & Hrefl & Hsym & _ & _ & Hgt).
  intros Ha Hb Hab.
  destruct (number_sign (compare b a) (Hnan b a Hb Ha)) as [Hn|[Hz|Hp]];
    [exact Hn| |].
  - exfalso. apply (proj1 (proj2 (sign_exclusive (compare a b)))).
    split; [apply Hsym; assumption|exact Hab].
  - exfalso. apply (proj1 (proj2 (sign_exclusive (compare a a)))).
    split; [apply Hrefl, Ha|apply (Hgt a b a); assumption].
Qed.

Lemma consistent_below_above (a b : A) :
  In a S -> In b S -> is_negative (compare a b) -> is_positive (compare b a).
Proof.
  destruct Hcons as (Hnan & Hrefl & Hsym & _ & Hlt & _).
  intros Ha Hb Hab.
  destruct (number_sign (compare b a) (Hnan b a Hb Ha)) as [Hn|[Hz|Hp]];
    [| |exact Hp].
  - exfalso. apply (proj2 (proj2 (sign_exclusive (compare a a)))).
    split; [apply Hrefl, Ha|apply (Hlt a b a); assumption].
  - exfalso. apply (proj2 (proj2 (sign_exclusive (compare a b)))).
    split; [apply Hsym; assumption|exact Hab].
Qed.

(** An element that is not above [y] is below nothing that [y] is not
    above. *)
Lemma consistent_not_above (x y z : A) :
  In x S -> In y S -> In z S ->
  ~ is_positive (compare x y) -> ~ is_negative (compare z y) ->
  ~ is_negative (compare z x).
Proof.
  pose proof Hcons as (Hnan & Hrefl & Hsym & Heq & Hlt & Hgt).
  intros Hx Hy Hz Hxy Hzy Hzx.
  destruct (number_sign (compare x y) (Hnan x y Hx Hy)) as [Hn|[Hz0|Hp]];
    [| |contradiction].
  - apply Hzy. apply (Hlt z x y); assumption.
  - destruct (number_sign (compare z y) (Hnan z y Hz Hy)) as [Hn|[Hz1|Hp]];
      [contradiction| |].
    + apply (proj2 (proj2 (sign_exclusive (compare z x)))).
      split; [|exact Hzx].
      apply (Heq z y x); try assumption. apply Hsym; assumption.
    + apply Hxy. apply consistent_below_above; try assumption.
      apply (Hlt y z x); try assumption.
      apply consistent_above_below; assumption.
Qed.

Lemma sort_insert_sorted (x : A) (l : list A) :
  In x S -> (forall y, In y l -> In y S) ->
  StronglySorted (fun u v => ~ is_negative (compare v u)) l ->
  StronglySorted (fun u v => ~ is_negative (compare v u))
    (sort_insert compare x l).
Proof.
  intros Hx Hl Hs. induction Hs as [|y l Hs IH Hy]; simpl.
  - repeat constructor.
  - assert (In y S) as HyS by (apply Hl; left; reflexivity).
    assert (forall z, In z l -> In z S) as HlS
      by (intros z Hz; apply Hl; right; exact Hz).
    destruct (positive (compare x y)) eqn:Hp.
    + apply positive_spec in Hp. constructor; [apply IH, HlS|].
      apply List.Forall_forall. intros z Hz.
      apply (Permutation_in _ (sort_insert_perm compare x l)) in Hz.
      destruct Hz as [<-|Hz].
      * intros Hn. apply (proj1 (sign_exclusive (compare x y))). auto.
      * rewrite List.Forall_forall in Hy. apply Hy, Hz.
    + assert (~ is_positive (compare x y)) as Hnp
        by (rewrite <- positive_spec; congruence).
      constructor; [constructor; assumption|].
      apply List.Forall_forall. intros z [<-|Hz].
      * intros Hn. apply Hnp. apply consistent_below_above; assumption.
      * rewrite List.Forall_forall in Hy.
        apply (consistent_not_above x y z); auto.
Qed.

Lemma insertion_sort_sorted (l : list A) :
  (forall y, In y l -> In y S) ->
  StronglySorted (fun u v => ~ is_negative (compare v u))
    (insertion_sort compare l).
Proof.
  induction l as [|x l IH]; intros Hl; simpl; [constructor|].
  apply sort_insert_sorted.
  - apply Hl. left. reflexivity.
  - intros y Hy. apply Hl. right.
    apply (Permutation_in _ (insertion_sort_perm compare l)), Hy.
  - apply IH. intros y Hy. apply Hl. right. exact Hy.
Qed.

End Consistent.

(** The sort by insertion keeps what ECMAScript promises. *)
Lemma insertion_sort_contract : @sort_contract latin1.
Proof.
  intros A compare l Hcons.
  apply (insertion_sort_sorted compare l Hcons). auto.
Qed.

(** The comparator of the ranker is consistent on finite scores. *)
Lemma score_compare_consistent {A} (key : A -> number) (l : list A) :
  (forall a, In a l -> exists r, key a = Finite r) ->
  consistent_comparator (fun a b => number_sub (key b) (key a)) l.
Proof.
  intros Hfin.
  assert (forall a b, In a l -> In b l ->
            exists x y, key a = Finite x /\ key b = Finite y
                        /\ number_sub (key b) (key a) = Finite (y - x)) as Hsub.
  { intros a b Ha Hb. destruct (Hfin a Ha) as [x Hx], (Hfin b Hb) as [y Hy].
    exists x, y. rewrite Hx, Hy. auto. }
  unfold consistent_comparator, is_zero. repeat split.
  - intros a b Ha Hb. destruct (Hsub a b Ha Hb) as (x & y & _ & _ & ->).
    discriminate.
  - intros a Ha. destruct (Hsub a a Ha Ha) as (x & y & Hx & Hy & ->).
    rewrite Hx in Hy. injection Hy as ->. f_equal. lra.
  - intros a b Ha Hb.
    destruct (Hsub a b Ha Hb) as (x & y & Hx & Hy & ->).
    destruct (Hsub b a Hb Ha) as (y' & x' & Hy' & Hx' & ->).
    rewrite Hx in Hx'. rewrite Hy in Hy'. injection Hx' as <-. injection Hy' as <-.
    intros [= Hz]. f_equal. lra.
  - intros a b c Ha Hb Hc.
    destruct (Hsub a b Ha Hb) as (x & y & Hx & Hy & ->).
    destruct (Hsub b c Hb Hc) as (y' & z & Hy' & Hz & ->).
    destruct (Hsub a c Ha Hc) as (x' & z' & Hx' & Hz' & ->).
    rewrite Hx in Hx'. rewrite Hy in Hy'. rewrite Hz in Hz'.
    injection Hx' as <-. injection Hy' as <-. injection Hz' as <-.
    intros [= H1] [= H2]. f_equal. lra.
  - intros a b c Ha Hb Hc.
    destruct (Hsub a b Ha Hb) as (x & y & Hx & Hy & ->).
    destruct (Hsub b c Hb Hc) as (y' & z & Hy' & Hz & ->).
    destruct (Hsub a c Ha Hc) as (x' & z' & Hx' & Hz' & ->).
    rewrite Hx in Hx'. rewrite Hy in Hy'. rewrite Hz in Hz'.
    injection Hx' as <-. injection Hy' as <-. injection Hz' as <-.
    simpl. lra.
  - intros a b c Ha Hb Hc.
    destruct (Hsub a b Ha Hb) as (x & y & Hx & Hy & ->).
    destruct (Hsub b c Hb Hc) as (y' & z & Hy' & Hz & ->).
    destruct (Hsub a c Ha Hc) as (x' & z' & Hx' & Hz' & ->).
    rewrite Hx in Hx'. rewrite Hy in Hy'. rewrite Hz in Hz'.
    injection Hx' as <-. injection Hy' as <-. injection Hz' as <-.
    simpl. lra.
Qed.

Lemma StronglySorted_take {A} (R : A -> A -> Prop) (n : nat) (l : list A) :
  StronglySorted R l -> StronglySorted R (take n l).
Proof.
  intros Hs. revert n. induction Hs as [|x l Hs IH Hx]; intros [|n]; simpl;
    try constructor.
  - apply IH.
  - eapply Forall_forall. intros y Hy.
    eapply Forall_forall in Hx; [exact Hx|].
    eapply subseteq_take; exact Hy.
Qed.

Lemma StronglySorted_weaken {A} (R R' : A -> A -> Prop) (P : A -> Prop)
    (l : list A) :
  (forall a b, P a -> P b -> R a b -> R' a b) ->
  Forall P l -> StronglySorted R l -> StronglySorted R' l.
Proof.
  intros HR HP Hs. induction Hs as [|x l Hs IH Hx]; constructor.
  - apply IH. eapply Forall_inv_tail, HP.
  - apply Forall_forall. intros y Hy.
    rewrite Forall_forall in HP, Hx.
    apply HR; [apply HP; left|apply HP; right; exact Hy|apply Hx, Hy].
Qed.

Lemma StronglySorted_map {A B} (f : A -> B) (R : B -> B -> Prop) (l : list A) :
  StronglySorted (fun a b => R (f a) (f b)) l -> StronglySorted R (map f l).
Proof.
  induction 1 as [|x l Hs IH Hx]; simpl; constructor; [exact IH|].
  apply List.Forall_map. exact Hx.
Qed.

Lemma Math_log_positive (r : R) :
  (0 < r)%R -> Math_log (Number_ r) = Finite (ln r).
Proof.
  intros Hr. unfold Math_log. destruct (Rlt_dec 0 r); [reflexivity|contradiction].
Qed.

Section RankingProofs.
Context `{Runtime}.

Lemma rank_step_eq (model : Model) (cw : gset jsstring)
    (scored : list Scored) (c : jsstring) :
  rank_step model cw scored c =
  scored ++ (if isKnown model cw c then [scored_of model c] else []).
Proof.
  unfold rank_step, isKnown, scored_of, candidate_score.
  destruct (has (dictionary model) c || has cw c); simpl.
  - reflexivity.
  - symmetry. apply app_nil_r.
Qed.

Lemma rank_scored_filter (candidates : list jsstring) (model : Model)
    (cw : gset jsstring) :
  rank_scored candidates model cw =
  map (scored_of model) (List.filter (isKnown model cw) candidates).
Proof.
  unfold rank_scored.
  enough (forall acc,
    fold_left (rank_step model cw) candidates acc =
    acc ++ map (scored_of model) (List.filter (isKnown model cw) candidates))
    as Hgen by apply Hgen.
  induction candidates as [|c l IH]; intros acc; simpl.
  - symmetry. apply app_nil_r.
  - rewrite IH, rank_step_eq.
    destruct (isKnown model cw c); simpl.
    + rewrite <- app_assoc. reflexivity.
    + rewrite app_nil_r. reflexivity.
Qed.

Lemma isKnown_spec (model : Model) (cw : gset jsstring) (c : jsstring) :
  isKnown model cw c = true <-> c ∈ dictionary model \/ c ∈ cw.
Proof.
  unfold isKnown, has. rewrite orb_true_iff, !bool_decide_eq_true. reflexivity.
Qed.

Lemma rank_scored_elem (candidates : list jsstring) (model : Model)
    (cw : gset jsstring) (e : Scored) :
  e ∈ rank_scored candidates model cw ->
  candidate e ∈ candidates
  /\ (candidate e ∈ dictionary model \/ candidate e ∈ cw)
  /\ score e = candidate_score model (candidate e).
Proof.
  rewrite rank_scored_filter, list_elem_of_In, in_map_iff.
  intros (c & <- & Hc). apply filter_In in Hc as [Hin Hk].
  simpl. rewrite list_elem_of_In, <- isKnown_spec. auto.
Qed.

Lemma rankCandidates_elem (token : jsstring) (candidates : list jsstring)
    (model : Model) (cw : gset jsstring) (c : jsstring) :
  c ∈ rankCandidates token candidates model cw ->
  c ∈ candidates /\ (c ∈ dictionary model \/ c ∈ cw).
Proof.
  unfold rankCandidates. rewrite list_elem_of_In, in_map_iff.
  intros (e & <- & He). apply list_elem_of_In in He.
  apply subseteq_take in He. rewrite array_sort_perm in He.
  apply rank_scored_elem in He. tauto.
Qed.

(** The read of the frequency: the entry of the table; without an entry,
    NaN for a name that objects inherit and the frequency 1 otherwise. *)
Lemma candidate_score_cases (model : Model) (c : jsstring) :
  (forall f, frequencies model !! c = Some f ->
     candidate_score model c = spec_score model c
     /\ frequency_of model c = f)
  /\ (frequencies model !! c = None -> c ∉ Object_prototype_names ->
      candidate_score model c = spec_score model c
      /\ frequency_of model c = 1%R)
  /\ (frequencies model !! c = None -> c ∈ Object_prototype_names ->
      candidate_score model c = NaN).
Proof.
  unfold candidate_score, spec_score, frequency_of, get_property.
  split; [|split].
  - intros f ->. auto.
  - intros -> Hc. destruct (decide (c ∈ Object_prototype_names)); [contradiction|].
    auto.
  - intros -> Hc. destruct (decide (c ∈ Object_prototype_names)); [|contradiction].
    reflexivity.
Qed.

(** C1, the code at the input where it fails: the dictionary word
    "constructor" has no entry in the table of frequencies; the read
    [model.frequencies[candidate]] then gives the function that every
    object inherits under that name, not [undefined], so that the default 1
    is not taken: the word survives the filter and is returned, and its
    score is NaN, where the bigram log score plus the logarithm of the
    frequency 1 is a finite number. *)
Theorem rankCandidates_constructor :
  frequencies model_constructor !! str "constructor" = None
  /\ rankCandidates [] [str "constructor"] model_constructor ∅
     = [str "constructor"]
  /\ rank_scored [str "constructor"] model_constructor ∅
     = [{| candidate := str "constructor"; score := NaN |}]
  /\ spec_score model_constructor (str "constructor")
     = Finite (scoreWord (str "constructor") ∅ + ln 1)
  /\ (forall e, e ∈ rank_scored [str "constructor"] model_constructor ∅ ->
        score e <> spec_score model_constructor (candidate e)).
Proof.
  assert (rank_scored [str "constructor"] model_constructor ∅
          = [{| candidate := str "constructor"; score := NaN |}]) as Hscored.
  { rewrite rank_scored_filter. simpl.
    assert (isKnown model_constructor ∅ (str "constructor") = true) as ->
      by (apply isKnown_spec; left; set_solver).
    assert (candidate_score model_constructor (str "constructor") = NaN)
      as Hnan.
    { apply candidate_score_cases; [apply lookup_empty|].
      apply list_elem_of_In. left. reflexivity. }
    simpl. unfold scored_of. rewrite Hnan. reflexivity. }
  assert (spec_score model_constructor (str "constructor")
          = Finite (scoreWord (str "constructor") ∅ + ln 1)) as Hspec.
  { unfold spec_score, frequency_of.
    change (frequencies model_constructor) with (∅ : gmap jsstring R).
    change (bigramScores model_constructor) with (∅ : gmap jsstring R).
    rewrite lookup_empty, Math_log_positive by lra. reflexivity. }
  split; [apply lookup_empty|]. split; [|split; [exact Hscored|split]].
  - unfold rankCandidates. rewrite Hscored.
    pose proof (array_sort_perm (fun a b : Scored => number_sub (score b) (score a))
                  [{| candidate := str "constructor"; score := NaN |}]) as Hp.
    apply Permutation_singleton_r in Hp. rewrite Hp. reflexivity.
  - exact Hspec.
  - intros e He. rewrite Hscored in He. apply list_elem_of_singleton in He.
    subst e. simpl. rewrite Hspec. discriminate.
Qed.

End RankingProofs.

(** ** Candidate generation: proofs *)

Lemma filter_map_comm {A B} (f : B -> bool) (g : A -> B) (l : list A) :
  List.filter f (map g l) = map g (List.filter (fun x => f (g x)) l).
Proof.
  induction l as [|x l IH]; simpl; [reflexivity|].
  destruct (f (g x)); simpl; rewrite IH; reflexivity.
Qed.

Lemma filter_seq_lt (n m : nat) :
  n <= m -> List.filter (fun i => i <? n) (seq 0 m) = seq 0 n.
Proof.
  induction m as [|m IH]; intros Hle.
  - replace n with 0 by lia. reflexivity.
  - rewrite seq_S, List.filter_app. simpl.
    destruct (Nat.ltb_spec m n) as [Hlt|Hge].
    + replace n with (S m) by lia.
      rewrite seq_S. simpl. f_equal.
      apply forallb_filter_id, forallb_forall. intros i Hi.
      apply in_seq in Hi. apply Nat.ltb_lt. lia.
    + rewrite app_nil_r. apply IH. lia.
Qed.

Lemma flat_map_map {A B C} (f : B -> list C) (g : A -> B) (l : list A) :
  flat_map f (map g l) = flat_map (fun x => f (g x)) l.
Proof.
  induction l as [|x l IH]; simpl; [reflexivity|]. rewrite IH. reflexivity.
Qed.

Lemma flat_map_length_const {A B} (f : A -> list B) (k : nat) (l : list A) :
  (forall x, length (f x) = k) -> length (flat_map f l) = length l * k.
Proof.
  intros Hf. induction l as [|x l IH]; simpl; [reflexivity|].
  rewrite length_app, Hf, IH. reflexivity.
Qed.

Lemma truthy_drop (i : nat) (w : jsstring) :
  truthy (drop i w) = (i <? length w).
Proof.
  revert i. induction w as [|c w IH]; intros [|i]; try reflexivity.
  simpl. rewrite IH. reflexivity.
Qed.

Lemma splits_eq (word : jsstring) :
  splits word =
  map (fun i => (take i word, drop i word)) (seq 0 (S (length word))).
Proof.
  unfold splits, slice, slice_from. apply map_ext. intros i.
  rewrite Nat.sub_0_r. reflexivity.
Qed.

Lemma splits_nonempty_right (word : jsstring) :
  List.filter (fun '(_, right_) => truthy right_) (splits word) =
  map (fun i => (take i word, drop i word)) (seq 0 (length word)).
Proof.
  rewrite splits_eq, filter_map_comm. f_equal.
  rewrite <- (filter_seq_lt (length word) (S (length word))) by lia.
  apply filter_ext. intros i. apply truthy_drop.
Qed.

Lemma splits_long_right (word : jsstring) :
  List.filter (fun '(_, right_) => 1 <? length right_) (splits word) =
  map (fun i => (take i word, drop i word)) (seq 0 (length word - 1)).
Proof.
  rewrite splits_eq, filter_map_comm. f_equal.
  rewrite <- (filter_seq_lt (length word - 1) (S (length word))) by lia.
  apply filter_ext. intros i. rewrite length_drop.
  destruct (Nat.ltb_spec 1 (length word - i)),
           (Nat.ltb_spec i (length word - 1)); auto; lia.
Qed.

Lemma deletes_eq (word : jsstring) :
  deletes word =
  map (fun i => take i word ++ drop (S i) word) (seq 0 (length word)).
Proof.
  unfold deletes. rewrite splits_nonempty_right, map_map.
  apply map_ext. intros i. unfold slice_from.
  rewrite drop_drop. do 2 f_equal. lia.
Qed.

Lemma at_index_drop (i k : nat) (w : jsstring) :
  i + k < length w -> at_index k (drop i w) = [nth (i + k) w 0%N].
Proof.
  intros Hlt. unfold at_index. rewrite lookup_drop.
  destruct (w !! (i + k)) as [c|] eqn:Hc.
  - f_equal. symmetry. apply nth_lookup_Some with (d := 0%N) in Hc. exact Hc.
  - apply lookup_ge_None in Hc. lia.
Qed.

Lemma transposes_eq (word : jsstring) :
  transposes word =
  map (fun i => take i word
                ++ nth (S i) word 0%N :: nth i word 0%N :: drop (i + 2) word)
    (seq 0 (length word - 1)).
Proof.
  unfold transposes. rewrite splits_long_right, map_map.
  apply map_ext_in. intros i Hi. apply in_seq in Hi. unfold slice_from.
  rewrite !at_index_drop by lia. rewrite drop_drop.
  rewrite Nat.add_0_r, Nat.add_1_r. reflexivity.
Qed.

Lemma replaces_eq (word : jsstring) :
  replaces word =
  flat_map (fun i => map (fun c => take i word ++ c :: drop (S i) word) letters)
    (seq 0 (length word)).
Proof.
  unfold replaces. rewrite splits_nonempty_right, flat_map_map.
  apply flat_map_ext. intros i. unfold letters_split, slice_from.
  rewrite map_map. apply map_ext. intros c.
  rewrite drop_drop. simpl. do 3 f_equal. lia.
Qed.

Lemma inserts_eq (word : jsstring) :
  inserts word =
  flat_map (fun i => map (fun c => take i word ++ c :: drop i word) letters)
    (seq 0 (S (length word))).
Proof.
  unfold inserts. rewrite splits_eq, flat_map_map.
  apply flat_map_ext. intros i. unfold letters_split.
  rewrite map_map. reflexivity.
Qed.

Lemma new_Set_fold (l acc : list jsstring) :
  NoDup acc ->
  NoDup (fold_left Set_add l acc)
  /\ (forall x, x ∈ fold_left Set_add l acc <-> x ∈ acc \/ x ∈ l).
Proof.
  revert acc. induction l as [|y l IH]; intros acc Hacc; simpl.
  - split; [exact Hacc|]. intros x. rewrite elem_of_nil. tauto.
  - assert (NoDup (Set_add acc y)) as Hnd.
    { unfold Set_add. destruct (decide (y ∈ acc)) as [Hin|Hout]; [exact Hacc|].
      apply NoDup_app. split; [exact Hacc|]. split.
      - intros x Hx Hx'. apply list_elem_of_singleton in Hx'. congruence.
      - apply NoDup_singleton. }
    destruct (IH _ Hnd) as [Hnd' Hel]. split; [exact Hnd'|].
    intros x. rewrite Hel, elem_of_cons. unfold Set_add.
    destruct (decide (y ∈ acc)) as [Hin|Hout].
    + split; [tauto|]. intros [?|[->|?]]; auto.
    + rewrite elem_of_app, list_elem_of_singleton. tauto.
Qed.

Lemma new_Set_NoDup (l : list jsstring) : NoDup (new_Set l).
Proof. apply new_Set_fold, NoDup_nil_2. Qed.

Lemma new_Set_elem (l : list jsstring) (x : jsstring) : x ∈ new_Set l <-> x ∈ l.
Proof.
  unfold new_Set. rewrite (proj2 (new_Set_fold l [] (NoDup_nil_2))).
  rewrite elem_of_nil. tauto.
Qed.

(** C3: the candidates are the set, without repetition, of the strings that
    the splits of the word at the indices 0..n give: the n deletions, the
    n - 1 transpositions of adjacent characters, the n * a substitutions and
    the (n + 1) * a insertions of a letter of the alphabet (a = 43 letters);
    the empty word gives the a insertions only, and a word of one character
    has no transposition. *)
Theorem editDistanceOne_families (word : jsstring) :
  splits word =
    map (fun i => (take i word, drop i word)) (seq 0 (S (length word)))
  /\ deletes word =
       map (fun i => take i word ++ drop (S i) word) (seq 0 (length word))
  /\ transposes word =
       map (fun i => take i word
                     ++ nth (S i) word 0%N :: nth i word 0%N
                        :: drop (i + 2) word)
         (seq 0 (length word - 1))
  /\ replaces word =
       flat_map (fun i =>
                   map (fun c => take i word ++ c :: drop (S i) word) letters)
         (seq 0 (length word))
  /\ inserts word =
       flat_map (fun i =>
                   map (fun c => take i word ++ c :: drop i word) letters)
         (seq 0 (S (length word)))
  /\ (length (deletes word) = length word
      /\ length (transposes word) = length word - 1
      /\ length (replaces word) = length word * length letters
      /\ length (inserts word) = (length word + 1) * length letters
      /\ length letters = 43)
  /\ (NoDup (editDistanceOne word)
      /\ forall c, c ∈ editDistanceOne word <->
                   c ∈ deletes word \/ c ∈ transposes word
                   \/ c ∈ replaces word \/ c ∈ inserts word)
  /\ editDistanceOne [] = map (fun c => [c]) letters
  /\ (length word = 1 -> transposes word = []).
Proof.
  split; [apply splits_eq|].
  split; [apply deletes_eq|].
  split; [apply transposes_eq|].
  split; [apply replaces_eq|].
  split; [apply inserts_eq|].
  split; [|split; [|split]].
  - rewrite deletes_eq, transposes_eq, replaces_eq, inserts_eq.
    rewrite !length_map, !length_seq.
    rewrite !(flat_map_length_const _ (length letters))
      by (intros; apply length_map).
    rewrite !length_seq. repeat split; try reflexivity. lia.
  - split; [apply new_Set_NoDup|]. intros c. unfold editDistanceOne.
    rewrite new_Set_elem, !elem_of_app. reflexivity.
  - vm_compute. reflexivity.
  - intros Hlen. rewrite transposes_eq, Hlen. reflexivity.
Qed.

Lemma lookup_nth_lt (i : nat) (w : jsstring) :
  i < length w -> w !! i = Some (nth i w 0%N).
Proof.
  intros Hi. destruct (nth_lookup_or_length w i 0%N) as [Hl|Hl]; [exact Hl|lia].
Qed.

Lemma nth_middle_take (i : nat) (w rest : jsstring) (c : N) :
  i <= length w -> nth i (take i w ++ c :: rest) 0%N = c.
Proof.
  intros Hi. rewrite app_nth2; rewrite length_take, Nat.min_l by lia; [|lia].
  rewrite Nat.sub_diag. reflexivity.
Qed.

Lemma deletes_shorter (word c : jsstring) :
  In c (deletes word) -> S (length c) = length word.
Proof.
  rewrite deletes_eq, in_map_iff. intros (i & <- & Hi). apply in_seq in Hi.
  rewrite length_app, length_take, length_drop. lia.
Qed.

Lemma inserts_longer (word c : jsstring) :
  In c (inserts word) -> length c = S (length word).
Proof.
  rewrite inserts_eq, in_flat_map. intros (i & Hi & Hc). apply in_seq in Hi.
  apply in_map_iff in Hc as (x & <- & _).
  rewrite length_app, length_take. simpl. rewrite length_drop. lia.
Qed.

Lemma transposes_self (word : jsstring) :
  In word (transposes word) <->
  exists i c, word !! i = Some c /\ word !! S i = Some c.
Proof.
  rewrite transposes_eq, in_map_iff. split.
  - intros (i & Heq & Hi). apply in_seq in Hi.
    exists i, (nth i word 0%N).
    assert (nth (S i) word 0%N = nth i word 0%N) as Hsame.
    { apply (f_equal (fun l => nth i l 0%N)) in Heq.
      rewrite nth_middle_take in Heq by lia. exact Heq. }
    split.
    + apply lookup_nth_lt. lia.
    + rewrite <- Hsame. apply lookup_nth_lt. lia.
  - intros (i & c & Hi & HSi). exists i.
    pose proof (lookup_lt_Some _ _ _ HSi) as Hlt. split.
    + rewrite (nth_lookup_Some _ _ 0%N _ Hi), (nth_lookup_Some _ _ 0%N _ HSi).
      transitivity (take i word ++ c :: drop (S i) word);
        [|apply take_drop_middle, Hi].
      rewrite (drop_S word c (S i) HSi).
      replace (i + 2) with (S (S i)) by lia. reflexivity.
    + apply in_seq. lia.
Qed.

Lemma replaces_self (word : jsstring) :
  In word (replaces word) <-> exists c, c ∈ word /\ c ∈ letters.
Proof.
  rewrite replaces_eq, in_flat_map. split.
  - intros (i & Hi & Hc). apply in_seq in Hi.
    apply in_map_iff in Hc as (c & Heq & Hc). exists c.
    split; [|apply list_elem_of_In, Hc].
    apply (f_equal (fun l => nth i l 0%N)) in Heq.
    rewrite nth_middle_take in Heq by lia. subst c.
    apply list_elem_of_In, nth_In. lia.
  - intros (c & Hw & Hc). apply list_elem_of_lookup in Hw as [i Hi].
    exists i. split.
    + apply in_seq. pose proof (lookup_lt_Some _ _ _ Hi). lia.
    + apply in_map_iff. exists c.
      split; [apply take_drop_middle, Hi|apply list_elem_of_In, Hc].
Qed.

(** C5, as the code has it: the candidates of a word contain the word
    itself exactly when one of its characters is a letter of the alphabet
    (the substitution of the letter by itself) or two adjacent characters
    are equal (their transposition). *)
Theorem editDistanceOne_self (word : jsstring) :
  word ∈ editDistanceOne word <->
  (exists c, c ∈ word /\ c ∈ letters)
  \/ (exists i c, word !! i = Some c /\ word !! S i = Some c).
Proof.
  unfold editDistanceOne.
  rewrite new_Set_elem, list_elem_of_In, !in_app_iff.
  rewrite transposes_self, replaces_self. split.
  - intros [Hd|[Ht|[Hr|Hi]]]; auto.
    + apply deletes_shorter in Hd. lia.
    + apply inserts_longer in Hi. lia.
  - intros [Hr|Ht]; auto.
Qed.

(** C5, as stated, fails: the one-letter word "a" is among its own
    candidates. *)
Lemma editDistanceOne_self_counterexample :
  str "a" <> [] /\ str "a" ∈ editDistanceOne (str "a").
Proof.
  split; [discriminate|].
  apply list_elem_of_In. vm_compute. right. left. reflexivity.
Qed.

(** ** The correction service: proofs *)

Section ServiceProofs.
Context `{Runtime}.
Variable env : Env.

Lemma get_options_cache (st st1 : State) (r : Settled Options) :
  get_options env st = (st1, r) -> modelCache st1 = modelCache st.
Proof.
  unfold get_options, loadOptions, resolve.
  destruct (enabled (currentOptions st)); [congruence|].
  destruct (storage_sync_get env); intros [= <- _]; reflexivity.
Qed.

Lemma get_options_disabled (st st1 : State) (options : Options) :
  get_options env st = (st1, Fulfilled options) -> enabled options = false ->
  enabled (currentOptions st) = false
  /\ storage_sync_get env = Some options
  /\ currentOptions st1 = options.
Proof.
  unfold get_options, loadOptions, resolve.
  destruct (enabled (currentOptions st)) eqn:Hen.
  - intros [= <- <-] Hoff. congruence.
  - destruct (storage_sync_get env); [|discriminate].
    intros [= <- <-] _. auto.
Qed.

Lemma suggestCorrections_run (st st1 st2 : State) (options : Options)
    (model : Model) (token : jsstring) :
  get_options env st = (st1, Fulfilled options) ->
  enabled options = true ->
  loadModel env (language options) st1 = (st2, Fulfilled model) ->
  suggestCorrections env (Some token) st =
  (st2,
   Fulfilled
     (if negb (truthy (toLowerCase token))
         || has (dictionary model) (toLowerCase token)
         || has (parseCustomWords (customWords options)) (toLowerCase token)
      then assume_correct
      else
        let suggestions :=
          rankCandidates (toLowerCase token)
            (editDistanceOne (toLowerCase token)) model
            (parseCustomWords (customWords options)) in
        {| isCorrect := length suggestions =? 0;
           suggestions := suggestions |})).
Proof.
  intros Hopt Hen Hload. unfold suggestCorrections, await.
  rewrite Hopt, Hen. cbn [negb]. rewrite Hload.
  destruct (_ || _ || _); reflexivity.
Qed.

Lemma truthy_false (s : jsstring) : truthy s = false <-> s = [].
Proof. destruct s; simpl; split; congruence. Qed.

Lemma known_token (model : Model) (cw : gset jsstring) (s : jsstring) :
  negb (truthy s) || has (dictionary model) s || has cw s = true <->
  s = [] \/ s ∈ dictionary model \/ s ∈ cw.
Proof.
  unfold has. rewrite !orb_true_iff, negb_true_iff, truthy_false.
  rewrite !bool_decide_eq_true. tauto.
Qed.

Lemma parseCustomWords_elem (raw s : jsstring) :
  s ∈ parseCustomWords raw <->
  s <> [] /\ exists word, word ∈ split_on 44 raw /\ s = toLowerCase (trim word).
Proof.
  unfold parseCustomWords, parseCustomWords_list.
  rewrite elem_of_list_to_set, list_elem_of_In, filter_In, in_map_iff.
  split.
  - intros [(word & <- & Hw) Ht]. split.
    + intros Hnil. apply truthy_false in Hnil. congruence.
    + exists word. split; [apply list_elem_of_In, Hw|reflexivity].
  - intros [Hne (word & Hw & ->)]. split.
    + exists word. split; [reflexivity|apply list_elem_of_In, Hw].
    + destruct (truthy (toLowerCase (trim word))) eqn:Ht; [reflexivity|].
      apply truthy_false in Ht. contradiction.
Qed.

Lemma build_model_lowercase (data : ModelData) (model : Model) :
  build_model data = Fulfilled model -> lowercase_model model.
Proof.
  unfold build_model. destruct (data_dictionary data) as [words|]; [|discriminate].
  intros [= <-] w. simpl.
  rewrite elem_of_list_to_set, list_elem_of_In, in_map_iff.
  intros (w0 & <- & _). apply toLowerCase_idemp.
Qed.

Lemma loadModel_lowercase (language : jsstring) (st st' : State) (model : Model) :
  cache_lowercase st ->
  loadModel env language st = (st', Fulfilled model) ->
  lowercase_model model /\ cache_lowercase st'.
Proof.
  intros Hinv. unfold loadModel.
  destruct (modelCache st !! getModelUrl language) as [p|] eqn:Hc.
  - rewrite Hc. intros [= <- Hp]. simpl in Hp. subst p.
    split; [eapply Hinv, Hc|exact Hinv].
  - simpl. rewrite lookup_insert_eq. simpl.
    intros [= <- Hp].
    assert (lowercase_model model) as Hm.
    { destruct (fetch_json env (getModelUrl language)); [|discriminate].
      eapply build_model_lowercase, Hp. }
    split; [exact Hm|].
    intros url m. simpl. rewrite Hp.
    destruct (decide (url = getModelUrl language)) as [->|Hne].
    + rewrite lookup_insert_eq. intros [= <-]. exact Hm.
    + rewrite lookup_insert_ne by congruence. apply Hinv.
Qed.

(** C4: once the options are on and the lexicon is loaded, a token whose
    lowercased form is empty, or is a word of the dictionary, or is one of
    the parsed custom words, gets the verdict "correct, no suggestions";
    so does every word of the dictionary, and every token that is listed
    in the custom words, as "zyx" is when the custom words are "zyx". *)
Theorem suggestCorrections_known (st st1 st2 : State) (options : Options)
    (model : Model)
    (Hoptions : get_options env st = (st1, Fulfilled options))
    (Henabled : enabled options = true)
    (Hload : loadModel env (language options) st1 = (st2, Fulfilled model)) :
  (forall token,
     toLowerCase token = []
     \/ toLowerCase token ∈ dictionary model
     \/ toLowerCase token ∈ parseCustomWords (customWords options) ->
     suggestCorrections env (Some token) st = (st2, Fulfilled assume_correct))
  /\ (cache_lowercase st -> forall w, w ∈ dictionary model ->
        suggestCorrections env (Some w) st = (st2, Fulfilled assume_correct))
  /\ (forall token,
        token ∈ split_on 44 (customWords options) -> trim token = token ->
        suggestCorrections env (Some token) st = (st2, Fulfilled assume_correct))
  /\ (customWords options = str "zyx" ->
        suggestCorrections env (Some (str "zyx")) st
        = (st2, Fulfilled assume_correct)).
Proof.
  assert (forall token,
     toLowerCase token = []
     \/ toLowerCase token ∈ dictionary model
     \/ toLowerCase token ∈ parseCustomWords (customWords options) ->
     suggestCorrections env (Some token) st = (st2, Fulfilled assume_correct))
    as Hknown.
  { intros token Hk.
    rewrite (suggestCorrections_run st st1 st2 options model token) by assumption.
    apply known_token in Hk. rewrite Hk. reflexivity. }
  assert (forall token,
        token ∈ split_on 44 (customWords options) -> trim token = token ->
        suggestCorrections env (Some token) st = (st2, Fulfilled assume_correct))
    as Hlisted.
  { intros token Hin Htrim. apply Hknown.
    destruct (toLowerCase token) as [|c s] eqn:Hl; [left; reflexivity|].
    right. right. rewrite <- Hl. apply parseCustomWords_elem. split.
    - rewrite Hl. discriminate.
    - exists token. rewrite Htrim. auto. }
  split; [exact Hknown|]. split; [|split; [exact Hlisted|]].
  - intros Hinv w Hw. apply Hknown. right. left.
    assert (cache_lowercase st1) as Hinv1.
    { intros url m. rewrite (get_options_cache _ _ _ Hoptions). apply Hinv. }
    destruct (loadModel_lowercase _ _ _ _ Hinv1 Hload) as [Hm _].
    rewrite (Hm w Hw). exact Hw.
  - intros Hcw. apply Hlisted; [|reflexivity].
    rewrite Hcw. vm_compute. left.
Qed.

(** C6, as the code has it: the empty token gets the verdict "correct, no
    suggestions"; a token is not trimmed, so that one made of white space
    is checked as any other token that is not known: its verdict carries
    the ranked candidates and is "correct" only when there are none. *)
Theorem suggestCorrections_empty_token (st st1 st2 : State) (options : Options)
    (model : Model)
    (Hoptions : get_options env st = (st1, Fulfilled options))
    (Henabled : enabled options = true)
    (Hload : loadModel env (language options) st1 = (st2, Fulfilled model)) :
  suggestCorrections env (Some []) st = (st2, Fulfilled assume_correct)
  /\ (forall token,
        toLowerCase token <> [] ->
        toLowerCase token ∉ dictionary model ->
        toLowerCase token ∉ parseCustomWords (customWords options) ->
        suggestCorrections env (Some token) st =
        (st2,
         Fulfilled
           {| isCorrect :=
                length (rankCandidates (toLowerCase token)
                          (editDistanceOne (toLowerCase token)) model
                          (parseCustomWords (customWords options))) =? 0;
              suggestions :=
                rankCandidates (toLowerCase token)
                  (editDistanceOne (toLowerCase token)) model
                  (parseCustomWords (customWords options)) |})).
Proof.
  split.
  - rewrite (suggestCorrections_run st st1 st2 options model []) by assumption.
    rewrite toLowerCase_empty. reflexivity.
  - intros token Hne Hd Hc.
    rewrite (suggestCorrections_run st st1 st2 options model token) by assumption.
    destruct (_ || _ || _) eqn:Hk; [|reflexivity].
    apply known_token in Hk. tauto.
Qed.

(** C8: when the flag [enabled] of the options that the service reads is
    false, which is when it is false in [currentOptions] and in the stored
    options read in their place, every token gets the verdict "correct, no
    suggestions", and the cache of models is the one of before: no model
    is fetched. *)
Theorem suggestCorrections_disabled (st st1 : State) (options : Options)
    (token : option jsstring)
    (Hoptions : get_options env st = (st1, Fulfilled options))
    (Hdisabled : enabled options = false) :
  suggestCorrections env token st = (st1, Fulfilled assume_correct)
  /\ modelCache st1 = modelCache st
  /\ enabled (currentOptions st) = false
  /\ storage_sync_get env = Some options
  /\ forall message,
       msg_type message = str "SPELLCHECK" -> msg_token message = token ->
       onMessage env (Some message) st =
       (st1, Some {| res_token := token; res_isCorrect := true;
                     res_suggestions := [] |}).
Proof.
  assert (suggestCorrections env token st = (st1, Fulfilled assume_correct))
    as Hrun.
  { unfold suggestCorrections, await. rewrite Hoptions, Hdisabled. reflexivity. }
  destruct (get_options_disabled _ _ _ Hoptions Hdisabled) as (Hcur & Hst & _).
  split; [exact Hrun|]. split; [eapply get_options_cache, Hoptions|].
  split; [exact Hcur|]. split; [exact Hst|].
  intros message Hty Htok. unfold onMessage.
  rewrite Hty, Htok, Hrun. reflexivity.
Qed.

Lemma suggestCorrections_rejected (st : State) (token : option jsstring) :
  snd (suggestCorrections env token st) = Rejected <->
  (exists st1, get_options env st = (st1, Rejected))
  \/ (exists st1 options st2,
        get_options env st = (st1, Fulfilled options)
        /\ enabled options = true
        /\ (loadModel env (language options) st1 = (st2, Rejected)
            \/ (exists model,
                  loadModel env (language options) st1 = (st2, Fulfilled model))
               /\ token = None)).
Proof.
  unfold suggestCorrections, await.
  destruct (get_options env st) as [st1 [options|]];
    [|split; [intros _; left; eauto|reflexivity]].
  destruct (enabled options) eqn:Hen; cbn [negb].
  2: { split; [discriminate|].
       intros [[x Heq]|(x & o & y & Heq & Hen' & _)]; [discriminate Heq|].
       injection Heq as _ Ho. subst o. congruence. }
  destruct (loadModel env (language options) st1) as [st2 [model|]] eqn:Hl;
    [|split; [intros _; right; exists st1, options, st2; eauto|reflexivity]].
  destruct token as [token|].
  - assert (forall v : Verdict,
              snd (resolve v st2) = Rejected <->
              (exists st1', (st1, Fulfilled options) = (st1', Rejected))
              \/ (exists st1' options' st2',
                    (st1, Fulfilled options) = (st1', Fulfilled options')
                    /\ enabled options' = true
                    /\ (loadModel env (language options') st1' = (st2', Rejected)
                        \/ (exists model',
                              loadModel env (language options') st1'
                              = (st2', Fulfilled model'))
                           /\ Some token = None))) as Hno.
    { intros v. split; [discriminate|].
      intros [[x Heq]|(x & o & y & Heq & _ & [Hr|[_ Hn]])];
        [discriminate Heq| |discriminate Hn].
      injection Heq as Hx Ho. subst x o. rewrite Hl in Hr. discriminate Hr. }
    destruct (_ || _ || _); apply Hno.
  - split; [|reflexivity]. intros _. right.
    exists st1, options, st2. eauto 7.
Qed.

(** C9: the listener answers every [SPELLCHECK] message; when the service
    fails, at whatever step (the options or the lexicon cannot be loaded,
    the model file has no word list, the token is no string), the answer
    is the verdict "correct, no suggestions", and no error reaches the
    caller. *)
Theorem onMessage_fail_open (st : State) (message : Message)
    (Htype : msg_type message = str "SPELLCHECK")
    (Hfail : snd (suggestCorrections env (msg_token message) st) = Rejected) :
  snd (onMessage env (Some message) st) =
  Some {| res_token := msg_token message; res_isCorrect := true;
          res_suggestions := [] |}.
Proof.
  unfold onMessage. rewrite Htype. simpl.
  destruct (suggestCorrections env (msg_token message) st) as [st' [v|]];
    simpl in *; [discriminate|reflexivity].
Qed.

Lemma onMessage_answers (st : State) (message : Message) :
  msg_type message = str "SPELLCHECK" ->
  exists response, snd (onMessage env (Some message) st) = Some response.
Proof.
  intros Htype. unfold onMessage. rewrite Htype. simpl.
  destruct (suggestCorrections env (msg_token message) st) as [st' [v|]];
    simpl; eauto.
Qed.

Lemma loadModel_rejected (language : jsstring) (st : State) :
  snd (loadModel env language st) = Rejected <->
  modelCache st !! getModelUrl language = Some Rejected
  \/ (modelCache st !! getModelUrl language = None
      /\ (fetch_json env (getModelUrl language) = None
          \/ exists data, fetch_json env (getModelUrl language) = Some data
                          /\ data_dictionary data = None)).
Proof.
  unfold loadModel.
  destruct (modelCache st !! getModelUrl language) as [p|] eqn:Hc.
  - rewrite Hc. simpl. split.
    + intros ->. left. reflexivity.
    + intros [[= ->]|[[=] _]]. reflexivity.
  - simpl. rewrite lookup_insert_eq. simpl.
    destruct (fetch_json env (getModelUrl language)) as [data|].
    + unfold build_model. destruct (data_dictionary data) eqn:Hd.
      * split; [discriminate|].
        intros [[=]|[_ [[=]|(d & [= <-] & Hd')]]]. congruence.
      * split; [|reflexivity]. intros _. right. eauto.
    + split; [|reflexivity]. intros _. right. auto.
Qed.

(** C10: no suggestion of a verdict is the lowercased token itself. *)
Theorem suggestions_exclude_token (st st' : State) (token : jsstring)
    (verdict : Verdict)
    (Hrun : suggestCorrections env (Some token) st = (st', Fulfilled verdict)) :
  (toLowerCase token ∉ suggestions verdict)
  /\ forall message,
       msg_type message = str "SPELLCHECK" -> msg_token message = Some token ->
       exists response,
         snd (onMessage env (Some message) st) = Some response
         /\ toLowerCase token ∉ res_suggestions response.
Proof.
  assert (toLowerCase token ∉ suggestions verdict) as Hnot.
  { revert Hrun. unfold suggestCorrections, await.
    destruct (get_options env st) as [st1 [options|]]; [|discriminate].
    destruct (enabled options); cbn [negb].
    - destruct (loadModel env (language options) st1) as [st2 [model|]];
        [|discriminate].
      destruct (_ || _ || _) eqn:Hk.
      + intros [= _ <-]. apply not_elem_of_nil.
      + intros [= _ <-]. simpl. intros Hin.
        apply rankCandidates_elem in Hin as [_ Hin].
        assert (negb (truthy (toLowerCase token))
                || has (dictionary model) (toLowerCase token)
                || has (parseCustomWords (customWords options))
                     (toLowerCase token) = true) as Hk'
          by (apply known_token; tauto).
        congruence.
    - intros [= _ <-]. apply not_elem_of_nil. }
  split; [exact Hnot|].
  intros message Hty Htok. unfold onMessage.
  rewrite Hty, Htok, Hrun. simpl. eexists. split; [reflexivity|exact Hnot].
Qed.

End ServiceProofs.

(** ** The score of a custom word *)

Lemma Rsum_absent_windows (bs : gmap jsstring R) (ws : list jsstring) :
  (forall w, w ∈ ws -> bs !! w = None) ->
  Rsum (map (window_score bs) ws) = Rsum (map (fun _ => (-1.5)%R) ws).
Proof.
  induction ws as [|w ws IH]; intros Habs; simpl; [reflexivity|].
  rewrite IH by (intros w' Hw'; apply Habs; right; exact Hw').
  unfold window_score. rewrite (Habs w) by left. reflexivity.
Qed.

Section CustomScoreProofs.
Context `{Runtime}.

(** C7, as the code has it: a candidate that is a custom word is scored
    from the tables of the lexicon as every other candidate is: with an
    entry in [frequencies] its score is its bigram log score plus the
    logarithm of that entry; without an entry, and when it is not the name
    of a property that objects inherit, its frequency is 1; a window counts
    -1.5 when [bigramScores] has no entry for it, so that the score is the
    default one when no table has an entry. *)
Theorem custom_word_score (candidates : list jsstring) (model : Model)
    (cw : gset jsstring) (e : Scored)
    (Hscored : e ∈ rank_scored candidates model cw)
    (Hcustom : candidate e ∈ cw) :
  (forall f, frequencies model !! candidate e = Some f ->
     score e =
     number_add
       (Finite (Rsum (map (window_score (bigramScores model))
                        (windows (toLowerCase (candidate e))))))
       (Math_log (Number_ f)))
  /\ (frequencies model !! candidate e = None ->
      candidate e ∉ Object_prototype_names ->
      score e =
        Finite (Rsum (map (window_score (bigramScores model))
                        (windows (toLowerCase (candidate e))))
                + ln 1)
      /\ ((forall w, w ∈ windows (toLowerCase (candidate e)) ->
                     bigramScores model !! w = None) ->
          score e = Finite (default_score (candidate e)))).
Proof.
  apply rank_scored_elem in Hscored as (_ & _ & Hs).
  destruct (candidate_score_cases model (candidate e)) as (Hown & Hnone & _).
  split.
  - intros f Hf. destruct (Hown f Hf) as [Hc Hfreq].
    rewrite Hs, Hc. unfold spec_score. rewrite Hfreq, scoreWord_sum.
    reflexivity.
  - intros Hf Hname. destruct (Hnone Hf Hname) as [Hc Hfreq].
    assert (score e =
            Finite (Rsum (map (window_score (bigramScores model))
                            (windows (toLowerCase (candidate e))))
                    + ln 1)) as Hscore.
    { rewrite Hs, Hc. unfold spec_score.
      rewrite Hfreq, scoreWord_sum, Math_log_positive by lra. reflexivity. }
    split; [exact Hscore|].
    intros Hw. rewrite Hscore. unfold default_score.
    rewrite (Rsum_absent_windows _ _ Hw). reflexivity.
Qed.

End CustomScoreProofs.

Lemma rank_scored_zyx :
  @rank_scored latin1 [str "zyx"] model_zyx {[ str "zyx" ]} =
  [{| candidate := str "zyx";
      score := Finite (-1.5 + (-1.5 + 0) + ln 100) |}].
Proof.
  rewrite rank_scored_filter. simpl.
  assert (isKnown model_zyx {[ str "zyx" ]} (str "zyx") = true) as ->
    by (apply isKnown_spec; right; set_solver).
  simpl. unfold scored_of. do 2 f_equal.
  destruct (@candidate_score_cases latin1 model_zyx (str "zyx"))
    as (Hown & _).
  destruct (Hown 100%R (lookup_singleton_eq _ _)) as [-> _].
  unfold spec_score, frequency_of.
  change (frequencies model_zyx) with ({[ str "zyx" := 100%R ]} : gmap jsstring R).
  rewrite lookup_singleton_eq, scoreWord_sum, Math_log_positive by lra.
  reflexivity.
Qed.

(** C7, as stated, fails: the custom word "zyx" with the frequency 100 in
    the lexicon is scored with that frequency, not with 1. *)
Lemma custom_word_score_counterexample :
  exists e,
    e ∈ @rank_scored latin1 [str "zyx"] model_zyx {[ str "zyx" ]}
    /\ candidate e ∈ ({[ str "zyx" ]} : gset jsstring)
    /\ score e = Finite (-1.5 + (-1.5 + 0) + ln 100)
    /\ @default_score latin1 (candidate e) = (-3)%R
    /\ (-1.5 + (-1.5 + 0) + ln 100 <> -3)%R
    /\ score e <> Finite (@default_score latin1 (candidate e)).
Proof.
  exists {| candidate := str "zyx";
            score := Finite (-1.5 + (-1.5 + 0) + ln 100) |}.
  assert (@default_score latin1 (str "zyx") = (-3)%R) as Hd.
  { unfold default_score. simpl. rewrite ln_1. lra. }
  assert (0 < ln 100)%R as Hln.
  { rewrite <- ln_1. apply ln_increasing; lra. }
  split; [rewrite rank_scored_zyx; left|].
  split; [simpl; set_solver|]. simpl.
  split; [reflexivity|]. split; [exact Hd|]. split; [lra|].
  rewrite Hd. intros [= Heq]. lra.
Qed.

Lemma zyx_not_inherited : str "zyx" ∉ Object_prototype_names.
Proof.
  intros Hin. apply list_elem_of_In in Hin. vm_compute in Hin.
  intuition discriminate.
Qed.

Lemma rank_scored_zyx_default :
  @rank_scored latin1 [str "zyx"] model_a {[ str "zyx" ]} =
  [{| candidate := str "zyx";
      score := Finite (-1.5 + (-1.5 + 0) + ln 1) |}].
Proof.
  rewrite rank_scored_filter. simpl.
  assert (isKnown model_a {[ str "zyx" ]} (str "zyx") = true) as ->
    by (apply isKnown_spec; right; set_solver).
  simpl. unfold scored_of. do 2 f_equal.
  destruct (@candidate_score_cases latin1 model_a (str "zyx"))
    as (_ & Hnone & _).
  destruct (Hnone (lookup_empty _) zyx_not_inherited) as [-> _].
  unfold spec_score, frequency_of.
  change (frequencies model_a) with (∅ : gmap jsstring R).
  rewrite lookup_empty, scoreWord_sum, Math_log_positive by lra.
  reflexivity.
Qed.

Lemma custom_word_score_witness :
  let e := {| candidate := str "zyx";
              score := Finite (-1.5 + (-1.5 + 0) + ln 100) |} in
  let e' := {| candidate := str "zyx";
               score := Finite (-1.5 + (-1.5 + 0) + ln 1) |} in
  (e ∈ @rank_scored latin1 [str "zyx"] model_zyx {[ str "zyx" ]}
   /\ candidate e ∈ ({[ str "zyx" ]} : gset jsstring)
   /\ frequencies model_zyx !! candidate e = Some 100%R
   /\ score e =
      number_add
        (Finite (Rsum (map (window_score (bigramScores model_zyx))
                         (windows (@toLowerCase latin1 (candidate e))))))
        (Math_log (Number_ 100)))
  /\ (e' ∈ @rank_scored latin1 [str "zyx"] model_a {[ str "zyx" ]}
      /\ frequencies model_a !! candidate e' = None
      /\ (candidate e' ∉ Object_prototype_names)
      /\ score e' = Finite (@default_score latin1 (candidate e'))).
Proof.
  intros e e'.
  assert (candidate e ∈ ({[ str "zyx" ]} : gset jsstring)) as Hc
    by (simpl; set_solver).
  split.
  - assert (e ∈ @rank_scored latin1 [str "zyx"] model_zyx {[ str "zyx" ]})
      as Hs by (rewrite rank_scored_zyx; left).
    assert (frequencies model_zyx !! candidate e = Some 100%R) as Hf
      by apply lookup_singleton_eq.
    split; [exact Hs|]. split; [exact Hc|]. split; [exact Hf|].
    destruct (@custom_word_score latin1 [str "zyx"] model_zyx {[ str "zyx" ]}
                e Hs Hc) as (Hown & _).
    exact (Hown 100%R Hf).
  - assert (e' ∈ @rank_scored latin1 [str "zyx"] model_a {[ str "zyx" ]})
      as Hs by (rewrite rank_scored_zyx_default; left).
    assert (frequencies model_a !! candidate e' = None) as Hf
      by apply lookup_empty.
    split; [exact Hs|]. split; [exact Hf|]. split; [exact zyx_not_inherited|].
    destruct (@custom_word_score latin1 [str "zyx"] model_a {[ str "zyx" ]}
                e' Hs Hc) as (_ & Hnone).
    destruct (Hnone Hf zyx_not_inherited) as [_ Hdefault].
    apply Hdefault. intros w _. apply lookup_empty.
Defined.

(** ** Runs of the service *)

(** C6, as stated, fails: with the word "a" in the dictionary, the token
    made of one space is answered with the suggestion "a". *)
Lemma whitespace_token_counterexample :
  forallb is_space (str " ") = true
  /\ snd (@suggestCorrections latin1 env_a (Some (str " ")) initial_state)
     = Fulfilled {| isCorrect := false; suggestions := [str "a"] |}
  /\ snd (@suggestCorrections latin1 env_a (Some (str " ")) initial_state)
     <> Fulfilled assume_correct.
Proof.
  split; [reflexivity|].
  assert (snd (@suggestCorrections latin1 env_a (Some (str " ")) initial_state)
          = Fulfilled {| isCorrect := false; suggestions := [str "a"] |}) as Hrun
    by (vm_compute; reflexivity).
  split; [exact Hrun|]. rewrite Hrun. discriminate.
Qed.

Lemma loadModel_env_a (options : Options) :
  language options = str "en-US" ->
  @loadModel latin1 env_a (language options)
    {| currentOptions := options; modelCache := ∅ |}
  = (loaded options, Fulfilled model_a).
Proof. intros ->. vm_compute. reflexivity. Qed.

Lemma suggestCorrections_known_witness :
  get_options env_a state_zyx = (state_zyx, Fulfilled options_zyx)
  /\ enabled options_zyx = true
  /\ @loadModel latin1 env_a (language options_zyx) state_zyx
     = (loaded options_zyx, Fulfilled model_a)
  /\ @suggestCorrections latin1 env_a (Some (str "zyx")) state_zyx
     = (loaded options_zyx, Fulfilled assume_correct).
Proof.
  pose proof (loadModel_env_a options_zyx eq_refl) as Hload.
  split; [reflexivity|]. split; [reflexivity|]. split; [exact Hload|].
  destruct (@suggestCorrections_known latin1 env_a state_zyx state_zyx
              (loaded options_zyx) options_zyx model_a
              eq_refl eq_refl Hload) as (_ & _ & _ & Hzyx).
  apply Hzyx. reflexivity.
Defined.

Lemma suggestCorrections_empty_token_witness :
  get_options env_a initial_state = (initial_state, Fulfilled defaultOptions)
  /\ enabled defaultOptions = true
  /\ @loadModel latin1 env_a (language defaultOptions) initial_state
     = (loaded defaultOptions, Fulfilled model_a)
  /\ @suggestCorrections latin1 env_a (Some []) initial_state
     = (loaded defaultOptions, Fulfilled assume_correct).
Proof.
  pose proof (loadModel_env_a defaultOptions eq_refl) as Hload.
  split; [reflexivity|]. split; [reflexivity|]. split; [exact Hload|].
  apply (@suggestCorrections_empty_token latin1 env_a initial_state
           initial_state (loaded defaultOptions) defaultOptions model_a
           eq_refl eq_refl Hload).
Defined.

Lemma suggestCorrections_disabled_witness :
  get_options env_off state_off = (state_off, Fulfilled options_off)
  /\ enabled options_off = false
  /\ @suggestCorrections latin1 env_off (Some (str "helo")) state_off
     = (state_off, Fulfilled assume_correct)
  /\ modelCache state_off = ∅.
Proof.
  split; [reflexivity|]. split; [reflexivity|].
  destruct (@suggestCorrections_disabled latin1 env_off state_off state_off
              options_off (Some (str "helo")) eq_refl eq_refl)
    as (Hrun & Hcache & _).
  split; [exact Hrun|exact Hcache].
Defined.

Lemma onMessage_fail_open_witness :
  msg_type message_helo = str "SPELLCHECK"
  /\ snd (@suggestCorrections latin1 env_offline (msg_token message_helo)
            initial_state) = Rejected
  /\ snd (@onMessage latin1 env_offline (Some message_helo) initial_state)
     = Some {| res_token := Some (str "helo"); res_isCorrect := true;
               res_suggestions := [] |}.
Proof.
  split; [reflexivity|]. split; [reflexivity|].
  apply (@onMessage_fail_open latin1 env_offline initial_state message_helo);
    reflexivity.
Defined.

Lemma suggestions_exclude_token_witness :
  @suggestCorrections latin1 env_a (Some (str " ")) initial_state
  = (loaded defaultOptions,
     Fulfilled {| isCorrect := false; suggestions := [str "a"] |})
  /\ str " " ∉ [str "a"].
Proof.
  assert (@suggestCorrections latin1 env_a (Some (str " ")) initial_state
          = (loaded defaultOptions,
             Fulfilled {| isCorrect := false; suggestions := [str "a"] |}))
    as Hrun by (vm_compute; reflexivity).
  split; [exact Hrun|].
  apply (@suggestions_exclude_token latin1 env_a initial_state
           (loaded defaultOptions) (str " ") _ Hrun).
Defined.

(** ** Candidate generation: the candidates as single edits *)

Lemma split_at (a b : jsstring) :
  take (length a) (a ++ b) = a /\ drop (length a) (a ++ b) = b.
Proof. split; [apply take_app_length|apply drop_app_length]. Qed.

Lemma split_of_index (w : jsstring) (i : nat) :
  i < length w ->
  w = take i w ++ nth i w 0%N :: drop (S i) w /\ length (take i w) = i.
Proof.
  intros Hi. split.
  - symmetry. apply take_drop_middle, lookup_nth_lt, Hi.
  - rewrite length_take. lia.
Qed.

Lemma deletes_iff (w c : jsstring) :
  In c (deletes w) <-> exists a x b, w = a ++ x :: b /\ c = a ++ b.
Proof.
  rewrite deletes_eq, in_map_iff. split.
  - intros (i & <- & Hi). apply in_seq in Hi.
    exists (take i w), (nth i w 0%N), (drop (S i) w).
    split; [apply split_of_index; lia|reflexivity].
  - intros (a & x & b & -> & ->). exists (length a). split.
    + rewrite take_app_length.
      replace (S (length a)) with (length a + 1) by lia.
      rewrite drop_app_add. reflexivity.
    + apply in_seq. rewrite length_app. simpl. lia.
Qed.

Lemma inserts_iff (w c : jsstring) :
  In c (inserts w) <->
  exists a x b, x ∈ letters /\ w = a ++ b /\ c = a ++ x :: b.
Proof.
  rewrite inserts_eq, in_flat_map. split.
  - intros (i & Hi & Hc). apply in_map_iff in Hc as (x & <- & Hx).
    exists (take i w), x, (drop i w).
    split; [apply list_elem_of_In, Hx|].
    split; [symmetry; apply take_drop|reflexivity].
  - intros (a & x & b & Hx & -> & ->). exists (length a). split.
    + apply in_seq. rewrite length_app. lia.
    + apply in_map_iff. exists x. rewrite take_app_length, drop_app_length.
      split; [reflexivity|apply list_elem_of_In, Hx].
Qed.

Lemma replaces_iff (w c : jsstring) :
  In c (replaces w) <->
  exists a x y b, y ∈ letters /\ w = a ++ x :: b /\ c = a ++ y :: b.
Proof.
  rewrite replaces_eq, in_flat_map. split.
  - intros (i & Hi & Hc). apply in_seq in Hi.
    apply in_map_iff in Hc as (y & <- & Hy).
    exists (take i w), (nth i w 0%N), y, (drop (S i) w).
    split; [apply list_elem_of_In, Hy|].
    split; [apply split_of_index; lia|reflexivity].
  - intros (a & x & y & b & Hy & -> & ->). exists (length a). split.
    + apply in_seq. rewrite length_app. simpl. lia.
    + apply in_map_iff. exists y. rewrite take_app_length.
      replace (S (length a)) with (length a + 1) by lia.
      rewrite drop_app_add.
      split; [reflexivity|apply list_elem_of_In, Hy].
Qed.

Lemma transposes_iff (w c : jsstring) :
  In c (transposes w) <->
  exists a x y b, w = a ++ x :: y :: b /\ c = a ++ y :: x :: b.
Proof.
  rewrite transposes_eq, in_map_iff. split.
  - intros (i & <- & Hi). apply in_seq in Hi.
    exists (take i w), (nth i w 0%N), (nth (S i) w 0%N), (drop (i + 2) w).
    split; [|reflexivity].
    destruct (split_of_index w i ltac:(lia)) as [Hw _].
    rewrite Hw at 1. do 2 f_equal.
    replace (i + 2) with (S (S i)) by lia.
    apply drop_S, lookup_nth_lt. lia.
  - intros (a & x & y & b & -> & ->). exists (length a). split.
    + rewrite take_app_length, drop_app_add. simpl.
      rewrite !app_nth2 by lia.
      replace (S (length a) - length a) with 1 by lia.
      rewrite Nat.sub_diag. reflexivity.
    + apply in_seq. rewrite length_app. simpl. lia.
Qed.

Lemma edits_iff (w c : jsstring) :
  c ∈ editDistanceOne w <->
  (exists a x b, w = a ++ x :: b /\ c = a ++ b)
  \/ (exists a x y b, w = a ++ x :: y :: b /\ c = a ++ y :: x :: b)
  \/ (exists a x y b, y ∈ letters /\ w = a ++ x :: b /\ c = a ++ y :: b)
  \/ (exists a x b, x ∈ letters /\ w = a ++ b /\ c = a ++ x :: b).
Proof.
  unfold editDistanceOne.
  rewrite new_Set_elem, list_elem_of_In, !in_app_iff.
  rewrite deletes_iff, transposes_iff, replaces_iff, inserts_iff.
  reflexivity.
Qed.

(** X1: the candidates of a word are exactly the strings one edit away
    from it: one character deleted, two adjacent characters swapped, one
    character replaced by a letter of the alphabet, or a letter of the
    alphabet inserted. *)
Theorem editDistanceOne_edits (w c : jsstring) :
  c ∈ editDistanceOne w <->
  (exists a x b, w = a ++ x :: b /\ c = a ++ b)
  \/ (exists a x y b, w = a ++ x :: y :: b /\ c = a ++ y :: x :: b)
  \/ (exists a x y b, y ∈ letters /\ w = a ++ x :: b /\ c = a ++ y :: b)
  \/ (exists a x b, x ∈ letters /\ w = a ++ b /\ c = a ++ x :: b).
Proof.
  unfold editDistanceOne.
  rewrite new_Set_elem, list_elem_of_In, !in_app_iff.
  rewrite deletes_iff, transposes_iff, replaces_iff, inserts_iff.
  reflexivity.
Qed.

(** X2: a candidate is at most one character shorter or longer than the
    word. *)
Theorem editDistanceOne_length (w c : jsstring) :
  c ∈ editDistanceOne w ->
  length w - 1 <= length c /\ length c <= length w + 1.
Proof.
  rewrite edits_iff.
  intros [(a & x & b & -> & ->)|[(a & x & y & b & -> & ->)
         |[(a & x & y & b & _ & -> & ->)|(a & x & b & _ & -> & ->)]]];
    rewrite !length_app; simpl; lia.
Qed.

Lemma new_Set_fold_length (l acc : list jsstring) :
  length (fold_left Set_add l acc) <= length acc + length l.
Proof.
  revert acc. induction l as [|y l IH]; intros acc; simpl; [lia|].
  etransitivity; [apply IH|]. unfold Set_add.
  destruct (decide (y ∈ acc)); rewrite ?length_app; simpl; lia.
Qed.

(** X3: a word of n characters has at most 88 * n + 43 candidates. *)
Theorem editDistanceOne_count (w : jsstring) :
  length (editDistanceOne w) <= 88 * length w + 43.
Proof.
  unfold editDistanceOne, new_Set.
  etransitivity; [apply new_Set_fold_length|].
  rewrite !length_app, deletes_eq, transposes_eq, replaces_eq, inserts_eq.
  rewrite !length_map, !length_seq.
  rewrite !(flat_map_length_const _ (length letters))
    by (intros; apply length_map).
  rewrite !length_seq. change (length letters) with 43. simpl. lia.
Qed.

(** X4: for a word made of letters of the alphabet, being a candidate is
    symmetric: the word is a candidate of each of its candidates. *)
Theorem editDistanceOne_sym (w c : jsstring)
    (Hletters : forall x, x ∈ w -> x ∈ letters)
    (Hcand : c ∈ editDistanceOne w) :
  w ∈ editDistanceOne c.
Proof.
  rewrite edits_iff in *.
  destruct Hcand as [(a & x & b & -> & ->)|[(a & x & y & b & -> & ->)
         |[(a & x & y & b & _ & -> & ->)|(a & x & b & _ & -> & ->)]]].
  - right. right. right. exists a, x, b.
    split; [|auto]. apply Hletters. rewrite elem_of_app, elem_of_cons. auto.
  - right. left. exists a, y, x, b. auto.
  - right. right. left. exists a, y, x, b.
    split; [|auto]. apply Hletters. rewrite elem_of_app, elem_of_cons. auto.
  - left. exists a, x, b. auto.
Qed.

Lemma editDistanceOne_sym_witness :
  (forall x, x ∈ str "helo" -> x ∈ letters)
  /\ str "hello" ∈ editDistanceOne (str "helo")
  /\ str "helo" ∈ editDistanceOne (str "hello").
Proof.
  assert (forall x, x ∈ str "helo" -> x ∈ letters) as Hl.
  { intros x Hx. apply list_elem_of_In in Hx. apply list_elem_of_In.
    vm_compute in Hx. vm_compute. intuition (subst; auto 50). }
  assert (str "hello" ∈ editDistanceOne (str "helo")) as Hc.
  { apply edits_iff. right. right. right.
    exists (str "hel"), 108%N, (str "o").
    split; [|split; reflexivity].
    apply list_elem_of_In. vm_compute. auto 50. }
  split; [exact Hl|]. split; [exact Hc|].
  exact (editDistanceOne_sym (str "helo") (str "hello") Hl Hc).
Defined.

Lemma editDistanceOne_length_witness :
  str "hello" ∈ editDistanceOne (str "helo")
  /\ length (str "helo") - 1 <= length (str "hello")
  /\ length (str "hello") <= length (str "helo") + 1.
Proof.
  assert (str "hello" ∈ editDistanceOne (str "helo")) as Hc.
  { apply list_elem_of_In. vm_compute. auto 500. }
  split; [exact Hc|].
  exact (editDistanceOne_length (str "helo") (str "hello") Hc).
Defined.

(** ** Ranking: what the truncation keeps *)

Lemma StronglySorted_app_between {A} (R : A -> A -> Prop) (l1 l2 : list A) :
  StronglySorted R (l1 ++ l2) ->
  forall x y, In x l1 -> In y l2 -> R x y.
Proof.
  induction l1 as [|z l1 IH]; simpl; intros Hs x y Hx Hy; [contradiction|].
  apply StronglySorted_inv in Hs as [Hs Hz]. destruct Hx as [->|Hx].
  - rewrite List.Forall_forall in Hz. apply Hz, in_or_app. right. exact Hy.
  - eapply IH; eassumption.
Qed.

Lemma insertion_sort_no_swap {A} (compare : A -> A -> number) (l : list A) :
  (forall x y, In x l -> In y l -> ~ is_positive (compare x y)) ->
  insertion_sort compare l = l.
Proof.
  induction l as [|x l IH]; intros Hc; simpl; [reflexivity|].
  rewrite IH by (intros; apply Hc; right; assumption).
  destruct l as [|y l]; simpl; [reflexivity|].
  destruct (positive (compare x y)) eqn:Hp; [|reflexivity].
  exfalso. apply positive_spec in Hp. apply (Hc x y); simpl; auto.
Qed.

Lemma sort_insert_behind {A} (compare : A -> A -> number) (x : A) (l : list A) :
  (forall y, In y l -> is_positive (compare x y)) ->
  sort_insert compare x l = l ++ [x].
Proof.
  induction l as [|y l IH]; intros Hc; simpl; [reflexivity|].
  rewrite (proj2 (positive_spec (compare x y))) by (apply Hc; left; reflexivity).
  rewrite IH by (intros; apply Hc; right; assumption). reflexivity.
Qed.

Section RankingMore.
Context `{Runtime}.

Lemma rankCandidates_take (token : jsstring) (candidates : list jsstring)
    (model : Model) (cw : gset jsstring) :
  rankCandidates token candidates model cw =
  take 5 (map candidate
            (array_sort (fun a b => number_sub (score b) (score a))
               (rank_scored candidates model cw)))
  /\ map candidate
       (array_sort (fun a b => number_sub (score b) (score a))
          (rank_scored candidates model cw))
     ≡ₚ List.filter (isKnown model cw) candidates.
Proof.
  split.
  - unfold rankCandidates. symmetry. apply firstn_map.
  - rewrite array_sort_perm, rank_scored_filter, map_map. simpl.
    rewrite map_id. reflexivity.
Qed.

Lemma rank_known (token : jsstring) (candidates : list jsstring)
    (model : Model) (cw : gset jsstring) :
  length (rankCandidates token candidates model cw) =
    Nat.min 5 (length (List.filter (isKnown model cw) candidates))
  /\ (NoDup candidates -> NoDup (rankCandidates token candidates model cw))
  /\ (length (List.filter (isKnown model cw) candidates) <= 5 ->
      rankCandidates token candidates model cw
      ≡ₚ List.filter (isKnown model cw) candidates).
Proof.
  destruct (rankCandidates_take token candidates model cw) as [-> Hp].
  split; [|split].
  - rewrite length_take, Hp. reflexivity.
  - intros Hnd. eapply sublist_NoDup; [|apply sublist_take].
    rewrite Hp. apply NoDup_ListNoDup, List.NoDup_filter, NoDup_ListNoDup, Hnd.
  - intros Hle. rewrite take_ge; [exact Hp|]. rewrite Hp. exact Hle.
Qed.

(** X5: the ranker returns as many suggestions as there are known
    candidates, up to 5; it returns no suggestion twice when no candidate
    comes twice; and when at most 5 candidates are known, the suggestions
    are these candidates, in some order. *)
Theorem rankCandidates_known (token : jsstring) (candidates : list jsstring)
    (model : Model) (cw : gset jsstring) :
  length (rankCandidates token candidates model cw) =
    Nat.min 5 (length (List.filter (isKnown model cw) candidates))
  /\ (NoDup candidates -> NoDup (rankCandidates token candidates model cw))
  /\ (length (List.filter (isKnown model cw) candidates) <= 5 ->
      rankCandidates token candidates model cw
      ≡ₚ List.filter (isKnown model cw) candidates).
Proof.
  destruct (rankCandidates_take token candidates model cw) as [-> Hp].
  split; [|split].
  - rewrite length_take, Hp. reflexivity.
  - intros Hnd. eapply sublist_NoDup; [|apply sublist_take].
    rewrite Hp. apply NoDup_ListNoDup, List.NoDup_filter, NoDup_ListNoDup, Hnd.
  - intros Hle. rewrite take_ge; [exact Hp|]. rewrite Hp. exact Hle.
Qed.

Lemma well_scored_finite (model : Model) (c : jsstring) :
  well_scored model c ->
  candidate_score model c = spec_score model c
  /\ exists r, candidate_score model c = Finite r.
Proof.
  unfold well_scored. intros Hw.
  destruct (candidate_score_cases model c) as (Hown & Hnone & _).
  destruct (frequencies model !! c) as [f|] eqn:Hf.
  - destruct (Hown f eq_refl) as [Hc Hfreq]. split; [exact Hc|].
    rewrite Hc. unfold spec_score. rewrite Hfreq, Math_log_positive by exact Hw.
    eexists. reflexivity.
  - destruct (Hnone eq_refl Hw) as [Hc Hfreq]. split; [exact Hc|].
    rewrite Hc. unfold spec_score. rewrite Hfreq, Math_log_positive by lra.
    eexists. reflexivity.
Qed.

(** The sorted array of a run whose known candidates all have a finite
    score. *)
Lemma sorted_scores (candidates : list jsstring) (model : Model)
    (cw : gset jsstring) :
  sort_contract ->
  (forall k, k ∈ candidates -> k ∈ dictionary model \/ k ∈ cw ->
             well_scored model k) ->
  StronglySorted
    (fun a b => finite_le (candidate_score model (candidate b))
                  (candidate_score model (candidate a)))
    (array_sort (fun a b => number_sub (score b) (score a))
       (rank_scored candidates model cw)).
Proof.
  intros Hsort Hscores.
  assert (forall e, In e (rank_scored candidates model cw) ->
            score e = candidate_score model (candidate e)
            /\ exists r, score e = Finite r) as Hfin.
  { intros e He. apply list_elem_of_In, rank_scored_elem in He
      as (Hc & Hk & Hs).
    split; [exact Hs|]. rewrite Hs. apply well_scored_finite, Hscores; auto. }
  pose proof (Hsort Scored (fun a b => number_sub (score b) (score a))
                (rank_scored candidates model cw)
                (score_compare_consistent score _
                   (fun e He => proj2 (Hfin e He)))) as Hs.
  apply (StronglySorted_weaken _ _
           (fun e => score e = candidate_score model (candidate e)
                     /\ exists r, score e = Finite r)) with (3 := Hs).
  - intros a b [Ha [x Hx]] [Hb [y Hy]] Hab.
    rewrite <- Ha, <- Hb. exists y, x. split; [exact Hy|]. split; [exact Hx|].
    rewrite Hx, Hy in Hab. simpl in Hab. lra.
  - apply Forall_forall. intros e He. apply Hfin.
    apply list_elem_of_In in He.
    eapply Permutation_in; [apply array_sort_perm|exact He].
Qed.

(** X6: the truncation keeps the best candidates: when the sort keeps what
    ECMAScript promises and every known candidate has a positive frequency,
    or none and a name that objects do not inherit, a known candidate that
    is not among the suggestions scores no more than any suggestion. *)
Theorem rankCandidates_keeps_best (token : jsstring)
    (candidates : list jsstring) (model : Model) (cw : gset jsstring)
    (c s : jsstring)
    (Hsort : sort_contract)
    (Hscores : forall k, k ∈ candidates -> k ∈ dictionary model \/ k ∈ cw ->
                         well_scored model k)
    (Hcand : c ∈ candidates)
    (Hknown : c ∈ dictionary model \/ c ∈ cw)
    (Hdropped : c ∉ rankCandidates token candidates model cw)
    (Hkept : s ∈ rankCandidates token candidates model cw) :
  exists x y,
    candidate_score model c = Finite x
    /\ candidate_score model s = Finite y
    /\ (x <= y)%R.
Proof.
  set (sorted := array_sort (fun a b => number_sub (score b) (score a))
                   (rank_scored candidates model cw)).
  assert (In (scored_of model c) sorted) as Hc.
  { eapply Permutation_in; [symmetry; apply array_sort_perm|].
    rewrite rank_scored_filter. apply in_map, filter_In. split.
    - apply list_elem_of_In, Hcand.
    - apply isKnown_spec, Hknown. }
  unfold rankCandidates in Hdropped, Hkept. fold sorted in Hdropped, Hkept.
  apply list_elem_of_In, in_map_iff in Hkept as (es & <- & Hes).
  rewrite <- (take_drop 5 sorted) in Hc. apply in_app_or in Hc as [Hc|Hc].
  - exfalso. apply Hdropped, list_elem_of_In.
    change c with (candidate (scored_of model c)). apply in_map, Hc.
  - pose proof (sorted_scores candidates model cw Hsort Hscores) as Hs.
    fold sorted in Hs. rewrite <- (take_drop 5 sorted) in Hs.
    exact (StronglySorted_app_between _ _ _ Hs _ _ Hes Hc).
Qed.

(** X23: when the sort keeps what ECMAScript promises and every known
    candidate has a positive frequency, or none and a name that objects do
    not inherit, the suggestions are in non-increasing order of score, and
    the score of each is its bigram log score plus the logarithm of its
    frequency, 1 without an entry. *)
Theorem rankCandidates_sorted (token : jsstring) (candidates : list jsstring)
    (model : Model) (cw : gset jsstring)
    (Hsort : sort_contract)
    (Hscores : forall k, k ∈ candidates -> k ∈ dictionary model \/ k ∈ cw ->
                         well_scored model k) :
  StronglySorted
    (fun a b => finite_le (candidate_score model b) (candidate_score model a))
    (rankCandidates token candidates model cw)
  /\ forall s, s ∈ rankCandidates token candidates model cw ->
       candidate_score model s = spec_score model s
       /\ spec_score model s
          = Finite (scoreWord s (bigramScores model)
                    + ln (frequency_of model s)).
Proof.
  split.
  - unfold rankCandidates. apply StronglySorted_map, StronglySorted_take.
    apply sorted_scores; assumption.
  - intros s Hs. apply rankCandidates_elem in Hs as [Hc Hk].
    pose proof (Hscores s Hc Hk) as Hw.
    split; [apply well_scored_finite, Hw|].
    unfold spec_score, frequency_of. unfold well_scored in Hw.
    destruct (frequencies model !! s);
      rewrite Math_log_positive by (exact Hw || lra); reflexivity.
Qed.

End RankingMore.

Lemma six_words_known (k : jsstring) :
  In k six_words -> isKnown model_six ∅ k = true.
Proof.
  intros Hk. apply isKnown_spec. left.
  apply elem_of_list_to_set, list_elem_of_In, Hk.
Qed.

Lemma six_words_scores (k : jsstring) :
  In k six_words ->
  well_scored model_six k
  /\ @candidate_score latin1 model_six k
     = Finite (0 + ln (if decide (k = str "a") then 1 / 2 else 1)).
Proof.
  intros Hk.
  assert (well_scored model_six k
          /\ frequency_of model_six k = (if decide (k = str "a") then 1 / 2 else 1)%R)
    as [Hw Hf].
  { unfold well_scored, frequency_of.
    change (frequencies model_six)
      with ({[ str "a" := (1 / 2)%R ]} : gmap jsstring R).
    destruct (decide (k = str "a")) as [->|Hne].
    - rewrite lookup_singleton_eq. split; [lra|reflexivity].
    - rewrite lookup_singleton_ne by congruence. split; [|reflexivity].
      intros Hin. apply list_elem_of_In in Hin. vm_compute in Hk, Hin.
      intuition (subst; discriminate). }
  split; [exact Hw|].
  rewrite (proj1 (@well_scored_finite latin1 model_six k Hw)).
  unfold spec_score. rewrite Hf.
  assert (@scoreWord latin1 k (bigramScores model_six) = 0%R) as ->.
  { vm_compute in Hk. intuition (subst; reflexivity). }
  rewrite Math_log_positive by (destruct (decide (k = str "a")); lra).
  reflexivity.
Qed.

Lemma rankCandidates_six :
  @rankCandidates latin1 [] six_words model_six ∅
  = [str "b"; str "c"; str "d"; str "e"; str "f"].
Proof.
  unfold rankCandidates. rewrite rank_scored_filter.
  rewrite (forallb_filter_id (isKnown model_six ∅) six_words)
    by (apply forallb_forall, six_words_known).
  change (@array_sort latin1 Scored) with (@insertion_sort Scored).
  assert (0 + ln (1 / 2) < 0 + ln 1)%R as Hlt
    by (apply Rplus_lt_compat_l, ln_increasing; lra).
  assert (forall k, In k (map (fun c => [c]) (str "bcdef")) ->
            score (@scored_of latin1 model_six k) = Finite (0 + ln 1)) as Hrest.
  { intros k Hk. simpl.
    rewrite (proj2 (six_words_scores k (or_intror Hk))).
    destruct (decide (k = str "a")) as [->|_]; [|reflexivity].
    vm_compute in Hk. intuition discriminate. }
  assert (score (@scored_of latin1 model_six (str "a"))
          = Finite (0 + ln (1 / 2))) as Ha.
  { simpl. rewrite (proj2 (six_words_scores (str "a") (or_introl eq_refl))).
    reflexivity. }
  change six_words with (str "a" :: map (fun c => [c]) (str "bcdef")).
  cbn [map insertion_sort foldr].
  change (foldr (sort_insert ?cmp) [] ?l) with (insertion_sort cmp l).
  rewrite insertion_sort_no_swap.
  - rewrite sort_insert_behind.
    + rewrite <- firstn_map, map_app, map_map. reflexivity.
    + intros y Hy. apply in_map_iff in Hy as (k & <- & Hk).
      rewrite Ha, (Hrest k Hk). simpl. lra.
  - intros x y Hx Hy.
    apply in_map_iff in Hx as (k & <- & Hk).
    apply in_map_iff in Hy as (k' & <- & Hk').
    rewrite (Hrest k Hk), (Hrest k' Hk'). simpl. lra.
Qed.

Lemma six_words_well_scored :
  forall k, k ∈ six_words ->
    k ∈ dictionary model_six \/ k ∈ (∅ : gset jsstring) ->
    well_scored model_six k.
Proof.
  intros k Hk _. apply six_words_scores, list_elem_of_In, Hk.
Qed.

Lemma rankCandidates_keeps_best_witness :
  @sort_contract latin1
  /\ str "a" ∈ six_words
  /\ (str "a" ∈ dictionary model_six \/ str "a" ∈ (∅ : gset jsstring))
  /\ (str "a" ∉ @rankCandidates latin1 [] six_words model_six ∅)
  /\ str "b" ∈ @rankCandidates latin1 [] six_words model_six ∅
  /\ @candidate_score latin1 model_six (str "a") = Finite (0 + ln (1 / 2))
  /\ @candidate_score latin1 model_six (str "b") = Finite (0 + ln 1)
  /\ (0 + ln (1 / 2) < 0 + ln 1)%R
  /\ exists x y,
       @candidate_score latin1 model_six (str "a") = Finite x
       /\ @candidate_score latin1 model_six (str "b") = Finite y
       /\ (x <= y)%R.
Proof.
  assert (str "a" ∈ six_words) as H1
    by (apply list_elem_of_In; left; reflexivity).
  assert (str "a" ∈ dictionary model_six \/ str "a" ∈ (∅ : gset jsstring)) as H2
    by (left; apply elem_of_list_to_set, H1).
  assert (str "a" ∉ @rankCandidates latin1 [] six_words model_six ∅) as H3.
  { rewrite rankCandidates_six. intros Hin. apply list_elem_of_In in Hin.
    vm_compute in Hin. intuition discriminate. }
  assert (str "b" ∈ @rankCandidates latin1 [] six_words model_six ∅) as H4
    by (rewrite rankCandidates_six; left).
  split; [exact insertion_sort_contract|].
  split; [exact H1|]. split; [exact H2|]. split; [exact H3|].
  split; [exact H4|].
  split; [exact (proj2 (six_words_scores (str "a") (or_introl eq_refl)))|].
  split; [exact (proj2 (six_words_scores (str "b")
                          (or_intror (or_introl eq_refl))))|].
  split; [apply Rplus_lt_compat_l, ln_increasing; lra|].
  exact (@rankCandidates_keeps_best latin1 [] six_words model_six ∅
           (str "a") (str "b") insertion_sort_contract six_words_well_scored
           H1 H2 H3 H4).
Defined.

Lemma rankCandidates_sorted_witness :
  @sort_contract latin1
  /\ (forall k, k ∈ six_words ->
        k ∈ dictionary model_six \/ k ∈ (∅ : gset jsstring) ->
        well_scored model_six k)
  /\ StronglySorted
       (fun a b => finite_le (@candidate_score latin1 model_six b)
                     (@candidate_score latin1 model_six a))
       (@rankCandidates latin1 [] six_words model_six ∅).
Proof.
  split; [exact insertion_sort_contract|].
  split; [exact six_words_well_scored|].
  exact (proj1 (@rankCandidates_sorted latin1 [] six_words model_six ∅
                  insertion_sort_contract six_words_well_scored)).
Defined.

(** ** The correction service: memoization, frames and invariants *)

Section ServiceMore.
Context `{Runtime}.

Lemma suggestCorrections_cases (env : Env) (token : option jsstring)
    (st : State) :
  suggestCorrections env token st =
  match get_options env st with
  | (st1, Rejected) => (st1, Rejected)
  | (st1, Fulfilled options) =>
      if enabled options then
        match loadModel env (language options) st1 with
        | (st2, Rejected) => (st2, Rejected)
        | (st2, Fulfilled model) =>
            match token with
            | None => (st2, Rejected)
            | Some token => (st2, Fulfilled (verdict_of options model token))
            end
        end
      else (st1, Fulfilled assume_correct)
  end.
Proof.
  unfold suggestCorrections, await.
  destruct (get_options env st) as [st1 [options|]]; [|reflexivity].
  destruct (enabled options); cbn [negb]; [|reflexivity].
  destruct (loadModel env (language options) st1) as [st2 [model|]];
    [|reflexivity].
  destruct token as [token|]; [|reflexivity].
  unfold verdict_of. destruct (_ || _ || _); reflexivity.
Qed.

Lemma loadModel_again (env env' : Env) (language language' : jsstring)
    (st st' : State) (r : Settled Model) :
  loadModel env language st = (st', r) ->
  getModelUrl language' = getModelUrl language ->
  loadModel env' language' st' = (st', r).
Proof.
  unfold loadModel. cbv zeta. intros Hload ->.
  destruct (modelCache st !! getModelUrl language) as [p|] eqn:Hc.
  - rewrite Hc in Hload. injection Hload as <- <-. rewrite !Hc. reflexivity.
  - injection Hload as <- <-. cbn [modelCache]. rewrite lookup_insert_eq.
    cbn [modelCache]. rewrite lookup_insert_eq. reflexivity.
Qed.

Lemma loadModel_state (env : Env) (language : jsstring) (st st' : State)
    (r : Settled Model) :
  loadModel env language st = (st', r) ->
  currentOptions st' = currentOptions st
  /\ cache_extends st st'
  /\ modelCache st' !! getModelUrl language = Some r
  /\ forall url, url <> getModelUrl language ->
                 modelCache st' !! url = modelCache st !! url.
Proof.
  unfold loadModel, cache_extends. cbv zeta.
  destruct (modelCache st !! getModelUrl language) as [p|] eqn:Hc.
  - rewrite Hc. intros [= <- <-]. simpl. auto.
  - simpl. rewrite lookup_insert_eq. intros [= <- <-]. simpl.
    split; [reflexivity|]. split; [|split].
    + intros url p Hp. rewrite lookup_insert_ne; [exact Hp|]. congruence.
    + apply lookup_insert_eq.
    + intros url Hne. apply lookup_insert_ne. congruence.
Qed.

(** X7: a model is loaded once per URL: after a call of [loadModel], every
    later call for a language with the same URL returns the same settled
    promise and leaves the state as it is, whatever a new fetch would give;
    a failed load is kept as well. All languages but "pt-PT" share one
    URL. *)
Theorem loadModel_memoized (env env' : Env) (language language' : jsstring)
    (st st' : State) (r : Settled Model)
    (Hload : loadModel env language st = (st', r)) :
  loadModel env' language st' = (st', r)
  /\ (getModelUrl language' = getModelUrl language ->
      loadModel env' language' st' = (st', r))
  /\ (language <> str "pt-PT" -> language' <> str "pt-PT" ->
      loadModel env' language' st' = (st', r)).
Proof.
  split; [eapply loadModel_again; eauto|].
  split; [intros Hurl; eapply loadModel_again; eauto|].
  intros Hl Hl'. eapply loadModel_again; [exact Hload|].
  unfold getModelUrl.
  destruct (decide (language' = str "pt-PT")), (decide (language = str "pt-PT"));
    congruence.
Qed.

Lemma get_options_state (env : Env) (st st1 : State) (r : Settled Options) :
  get_options env st = (st1, r) ->
  modelCache st1 = modelCache st
  /\ (forall options, r = Fulfilled options -> currentOptions st1 = options)
  /\ (r = Rejected -> st1 = st)
  /\ (enabled (currentOptions st) = true ->
      st1 = st /\ r = Fulfilled (currentOptions st)).
Proof.
  unfold get_options, loadOptions, resolve.
  destruct (enabled (currentOptions st)) eqn:Hen.
  - intros [= <- <-]. repeat split; try congruence.
  - destruct (storage_sync_get env) as [stored|]; intros [= <- <-]; simpl;
      repeat split; try congruence.
Qed.

Lemma get_options_again (env : Env) (st st1 st2 : State) (options : Options) :
  get_options env st = (st1, Fulfilled options) ->
  enabled options = true ->
  currentOptions st2 = options ->
  get_options env st2 = (st2, Fulfilled options).
Proof.
  intros _ Hen Hcur. unfold get_options, resolve. rewrite Hcur, Hen.
  reflexivity.
Qed.

(** X8: a check is idempotent on the state: a second call with the same
    token, from the state the first call leaves, gives the same settled
    result and changes nothing. *)
Theorem suggestCorrections_idempotent (env : Env) (token : option jsstring)
    (st st' : State) (r : Settled Verdict)
    (Hrun : suggestCorrections env token st = (st', r)) :
  suggestCorrections env token st' = (st', r).
Proof.
  rewrite suggestCorrections_cases in Hrun. rewrite suggestCorrections_cases.
  destruct (get_options env st) as [st1 [options|]] eqn:Hopt.
  - destruct (get_options_state _ _ _ _ Hopt) as (Hcache & Hcur & _ & _).
    specialize (Hcur options eq_refl).
    destruct (enabled options) eqn:Hen.
    + destruct (loadModel env (language options) st1) as [st2 r2] eqn:Hload.
      destruct (loadModel_state _ _ _ _ _ Hload) as (Hcur2 & _).
      assert (st' = st2) as -> by (destruct r2, token; congruence).
      rewrite (get_options_again env st st1 st2 options Hopt Hen)
        by congruence.
      rewrite Hen, (loadModel_again env env _ _ _ _ _ Hload eq_refl).
      destruct r2, token; congruence.
    + injection Hrun as <- <-.
      unfold get_options in *. rewrite Hcur, Hen.
      destruct (enabled (currentOptions st)) eqn:Hen0.
      * unfold resolve in Hopt. congruence.
      * unfold loadOptions in *.
        destruct (storage_sync_get env) as [stored|]; [|discriminate].
        injection Hopt as <- <-. rewrite Hen. reflexivity.
  - injection Hrun as <- <-.
    destruct (get_options_state _ _ _ _ Hopt) as (_ & _ & Hst & _).
    pose proof (Hst eq_refl) as ->. rewrite Hopt. reflexivity.
Qed.

(** X9: while [currentOptions.enabled] is true the service does not read
    the stored options: the result of a check is the same whatever the
    storage holds, and [currentOptions] stays as it is. *)
Theorem suggestCorrections_storage_free (env : Env) (stored : option Options)
    (token : option jsstring) (st : State)
    (Henabled : enabled (currentOptions st) = true) :
  suggestCorrections
    {| storage_sync_get := stored; fetch_json := fetch_json env |} token st
  = suggestCorrections env token st
  /\ currentOptions (fst (suggestCorrections env token st)) = currentOptions st.
Proof.
  rewrite !suggestCorrections_cases. unfold get_options, resolve.
  rewrite Henabled, Henabled.
  split.
  - reflexivity.
  - destruct (loadModel env (language (currentOptions st)) st)
      as [st2 r2] eqn:Hload.
    destruct (loadModel_state _ _ _ _ _ Hload) as (Hcur & _).
    destruct r2, token; exact Hcur.
Qed.

Lemma suggestCorrections_cache (env : Env) (token : option jsstring)
    (st st' : State) (r : Settled Verdict) :
  suggestCorrections env token st = (st', r) ->
  cache_extends st st'
  /\ (cache_lowercase st -> cache_lowercase st')
  /\ forall url, modelCache st' !! url <> modelCache st !! url ->
                 modelCache st !! url = None
                 /\ (url = str "models/pt.json" \/ url = str "models/model.json").
Proof.
  rewrite suggestCorrections_cases.
  destruct (get_options env st) as [st1 [options|]] eqn:Hopt.
  - destruct (get_options_state _ _ _ _ Hopt) as (Hcache & _).
    assert (cache_extends st st1 /\ (cache_lowercase st -> cache_lowercase st1)
            /\ forall url, modelCache st1 !! url = modelCache st !! url)
      as (He1 & Hl1 & Hsame).
    { unfold cache_extends, cache_lowercase. rewrite Hcache. auto. }
    destruct (enabled options).
    + destruct (loadModel env (language options) st1) as [st2 r2] eqn:Hload.
      destruct (loadModel_state _ _ _ _ _ Hload) as (_ & He2 & Hr & Hother).
      intros Hst. assert (st' = st2) as -> by (destruct r2, token; congruence).
      split; [intros url p Hp; apply He2, He1, Hp|]. split.
      * intros Hinv url m Hm.
        destruct (decide (url = getModelUrl (language options))) as [->|Hne].
        -- rewrite Hr in Hm. injection Hm as ->.
           exact (proj1 (loadModel_lowercase env _ _ _ _ (Hl1 Hinv) Hload)).
        -- rewrite Hother in Hm by exact Hne. eapply Hl1; eauto.
      * intros url Hne.
        destruct (decide (url = getModelUrl (language options))) as [->|Hne'].
        -- split.
           ++ destruct (modelCache st !! getModelUrl (language options))
                as [p|] eqn:Hp; [|reflexivity].
              exfalso. apply Hne. rewrite (He2 _ p); [reflexivity|].
              rewrite Hsame. exact Hp.
           ++ unfold getModelUrl. destruct (decide _); auto.
        -- exfalso. apply Hne. rewrite Hother by exact Hne'. apply Hsame.
    + intros [= <- _]. split; [exact He1|]. split; [exact Hl1|].
      intros url Hne. exfalso. apply Hne, Hsame.
  - intros [= <- _].
    destruct (get_options_state _ _ _ _ Hopt) as (Hcache & _ & Hst & _).
    rewrite (Hst eq_refl). split; [intros url p Hp; exact Hp|].
    split; [auto|]. intros url Hne. congruence.
Qed.

(** X10: the cache of models only grows: a message leaves every entry of
    the cache as it is, and the only entries it can add are the ones of the
    two model files. *)
Theorem onMessage_cache_grows (env : Env) (message : option Message)
    (st : State) :
  cache_extends st (fst (onMessage env message st))
  /\ forall url,
       modelCache (fst (onMessage env message st)) !! url
       <> modelCache st !! url ->
       modelCache st !! url = None
       /\ (url = str "models/pt.json" \/ url = str "models/model.json").
Proof.
  unfold onMessage. destruct message as [message|];
    [|split; [intros url p Hp; exact Hp
             |intros url Hne; exfalso; apply Hne; reflexivity]].
  destruct (negb _);
    [split; [intros url p Hp; exact Hp
            |intros url Hne; exfalso; apply Hne; reflexivity]|].
  destruct (suggestCorrections env (msg_token message) st) as [st' r] eqn:Hrun.
  destruct (suggestCorrections_cache _ _ _ _ _ Hrun) as (He & _ & Hnew).
  destruct r; simpl; auto.
Qed.

(** X11: the cache holds models with lowercase words only, and every
    message keeps it so. *)
Theorem onMessage_cache_lowercase (env : Env) (message : option Message)
    (st : State) (Hinv : cache_lowercase st) :
  cache_lowercase (fst (onMessage env message st)).
Proof.
  unfold onMessage. destruct message as [message|]; [|exact Hinv].
  destruct (negb _); [exact Hinv|].
  destruct (suggestCorrections env (msg_token message) st) as [st' r] eqn:Hrun.
  destruct (suggestCorrections_cache _ _ _ _ _ Hrun) as (_ & Hl & _).
  destruct r; simpl; auto.
Qed.

End ServiceMore.

(** ** The shape of verdicts and responses *)

Section VerdictProofs.
Context `{Runtime}.

Lemma verdict_of_shape (options : Options) (model : Model) (token : jsstring) :
  length (suggestions (verdict_of options model token)) <= 5
  /\ NoDup (suggestions (verdict_of options model token))
  /\ (isCorrect (verdict_of options model token) = true <->
      suggestions (verdict_of options model token) = [])
  /\ forall s, s ∈ suggestions (verdict_of options model token) ->
               s ∈ editDistanceOne (toLowerCase token).
Proof.
  unfold verdict_of. destruct (_ || _ || _); simpl.
  - split; [lia|]. split; [constructor|]. split; [tauto|].
    intros s Hs. apply elem_of_nil in Hs. contradiction.
  - set (cw := parseCustomWords (customWords options)).
    set (n := toLowerCase token).
    destruct (rank_known n (editDistanceOne n) model cw)
      as (Hlen & Hnd & _).
    split; [rewrite Hlen; lia|]. split; [apply Hnd, new_Set_NoDup|].
    split.
    + rewrite Nat.eqb_eq. apply length_zero_iff_nil.
    + intros s Hs. apply rankCandidates_elem in Hs. tauto.
Qed.

(** X12: every response to a [SPELLCHECK] message carries the token of the
    message and at most 5 suggestions, none of them twice; it says
    "correct" exactly when it has no suggestion; and each suggestion is one
    edit away from the lowercased token. *)
Theorem onMessage_response_shape (env : Env) (message : Message) (st : State)
    (response : Response)
    (Hresponse : snd (onMessage env (Some message) st) = Some response) :
  res_token response = msg_token message
  /\ length (res_suggestions response) <= 5
  /\ NoDup (res_suggestions response)
  /\ (res_isCorrect response = true <-> res_suggestions response = [])
  /\ forall s, s ∈ res_suggestions response ->
       exists token, msg_token message = Some token
                     /\ s ∈ editDistanceOne (toLowerCase token).
Proof.
  revert Hresponse. unfold onMessage.
  destruct (negb _); [discriminate|].
  rewrite suggestCorrections_cases.
  assert (forall st' : State,
    snd (st', Some (fail_open (msg_token message))) = Some response ->
    res_token response = msg_token message
    /\ length (res_suggestions response) <= 5
    /\ NoDup (res_suggestions response)
    /\ (res_isCorrect response = true <-> res_suggestions response = [])
    /\ forall s, s ∈ res_suggestions response ->
         exists token, msg_token message = Some token
                       /\ s ∈ editDistanceOne (toLowerCase token)) as Hfail.
  { intros st' [= <-]. simpl. split; [reflexivity|]. split; [lia|].
    split; [constructor|]. split; [tauto|].
    intros s Hs. apply elem_of_nil in Hs. contradiction. }
  destruct (get_options env st) as [st1 [options|]]; [|apply Hfail].
  destruct (enabled options).
  - destruct (loadModel env (language options) st1) as [st2 [model|]];
      [|apply Hfail].
    destruct (msg_token message) as [token|] eqn:Htok; [|apply Hfail].
    intros [= <-]. simpl.
    destruct (verdict_of_shape options model token) as (Hlen & Hnd & Hc & Hs).
    split; [reflexivity|]. split; [exact Hlen|]. split; [exact Hnd|].
    split; [exact Hc|]. intros s Hin. exists token. auto.
  - intros [= <-]. simpl. split; [reflexivity|]. split; [lia|].
    split; [constructor|]. split; [tauto|].
    intros s Hs. apply elem_of_nil in Hs. contradiction.
Qed.

(** X13: an unknown token is flagged exactly when one of its candidates
    is known: with the options on and the lexicon loaded, the verdict of a
    token that is neither empty nor known says "not correct" if and only if
    some candidate is in the dictionary or in the custom words, and it
    carries all the known candidates when they are at most 5. *)
Theorem suggestCorrections_flags (env : Env) (st st1 st2 : State)
    (options : Options) (model : Model) (token : jsstring)
    (Hoptions : get_options env st = (st1, Fulfilled options))
    (Henabled : enabled options = true)
    (Hload : loadModel env (language options) st1 = (st2, Fulfilled model))
    (Hnonempty : toLowerCase token <> [])
    (Hdict : toLowerCase token ∉ dictionary model)
    (Hcustom : toLowerCase token ∉ parseCustomWords (customWords options)) :
  exists verdict,
    suggestCorrections env (Some token) st = (st2, Fulfilled verdict)
    /\ (isCorrect verdict = false <->
        exists c, c ∈ editDistanceOne (toLowerCase token)
                  /\ (c ∈ dictionary model
                      \/ c ∈ parseCustomWords (customWords options)))
    /\ length (suggestions verdict) =
       Nat.min 5
         (length (List.filter
                    (isKnown model (parseCustomWords (customWords options)))
                    (editDistanceOne (toLowerCase token))))
    /\ forall c, c ∈ editDistanceOne (toLowerCase token) ->
         c ∈ dictionary model \/ c ∈ parseCustomWords (customWords options) ->
         length (List.filter
                   (isKnown model (parseCustomWords (customWords options)))
                   (editDistanceOne (toLowerCase token))) <= 5 ->
         c ∈ suggestions verdict.
Proof.
  rewrite (suggestCorrections_run env st st1 st2 options model token
             Hoptions Henabled Hload).
  destruct (_ || _ || _) eqn:Hmiss; [apply known_token in Hmiss; tauto|].
  clear Hmiss. eexists. split; [reflexivity|]. cbn [isCorrect suggestions].
  set (cw := parseCustomWords (customWords options)) in *.
  set (n := toLowerCase token) in *.
  destruct (rank_known n (editDistanceOne n) model cw)
    as (Hlen & _ & Hperm).
  assert (forall c, In c (List.filter (isKnown model cw) (editDistanceOne n))
                    <-> c ∈ editDistanceOne n /\ (c ∈ dictionary model \/ c ∈ cw))
    as Hfilter.
  { intros c. rewrite filter_In, isKnown_spec, list_elem_of_In. reflexivity. }
  split; [|split; [exact Hlen|]].
  - rewrite Nat.eqb_neq, Hlen. split.
    + intros Hne.
      destruct (List.filter (isKnown model cw) (editDistanceOne n))
        as [|c l] eqn:Hf; [simpl in Hne; lia|].
      exists c. apply Hfilter. rewrite ?Hf. left. reflexivity.
    + intros (c & Hc). apply Hfilter in Hc.
      destruct (List.filter (isKnown model cw) (editDistanceOne n)) eqn:Hf;
        [try rewrite Hf in Hc; contradiction|simpl; lia].
  - intros c Hc Hk Hle.
    apply (elem_of_Permutation_proper c _ _ (Hperm Hle)).
    apply list_elem_of_In, Hfilter. auto.
Qed.

End VerdictProofs.

(** ** Custom words: proofs *)

Lemma split_on_nonempty (sep : N) (s : jsstring) : split_on sep s <> [].
Proof.
  destruct s as [|c s]; simpl; [discriminate|].
  destruct (c =? sep)%N; [discriminate|].
  destruct (split_on sep s); discriminate.
Qed.

Lemma split_on_app (sep : N) (a b : jsstring) :
  split_on sep (a ++ sep :: b) = split_on sep a ++ split_on sep b.
Proof.
  induction a as [|c a IH]; simpl.
  - rewrite N.eqb_refl. reflexivity.
  - destruct (c =? sep)%N; rewrite IH; [reflexivity|].
    pose proof (split_on_nonempty sep a) as Hne.
    destruct (split_on sep a); [contradiction|reflexivity].
Qed.

Lemma split_on_units (sep : N) (s w : jsstring) (c : N) :
  In w (split_on sep s) -> In c w -> In c s /\ c <> sep.
Proof.
  revert w. induction s as [|d s IH]; simpl; intros w Hw Hc.
  - destruct Hw as [<-|[]]. contradiction.
  - destruct (N.eqb_spec d sep) as [->|Hne].
    + destruct Hw as [<-|Hw]; [contradiction|].
      destruct (IH w Hw Hc). auto.
    + pose proof (split_on_nonempty sep s) as Hnil.
      destruct (split_on sep s) as [|w0 ws]; [contradiction|].
      destruct Hw as [<-|Hw].
      * destruct Hc as [<-|Hc]; [auto|].
        destruct (IH w0 (or_introl eq_refl) Hc). auto.
      * destruct (IH w (or_intror Hw) Hc). auto.
Qed.

Lemma trim_spaces (s : jsstring) : forallb is_space s = true -> trim s = [].
Proof.
  intros Hs. unfold trim.
  assert (trim_start s = []) as ->; [|reflexivity].
  induction s as [|c s IH]; simpl in *; [reflexivity|].
  apply andb_prop in Hs as [-> Hs]. auto.
Qed.

Section CustomWordsProofs.
Context `{Runtime}.

(** X14: the custom words of two lists joined by a comma are the custom
    words of the one and of the other: the order of the entries and their
    repetition make no difference. *)
Theorem parseCustomWords_comma (a b : jsstring) :
  parseCustomWords (a ++ 44%N :: b) = parseCustomWords a ∪ parseCustomWords b
  /\ parseCustomWords (a ++ 44%N :: b) = parseCustomWords (b ++ 44%N :: a)
  /\ parseCustomWords (a ++ 44%N :: a) = parseCustomWords a.
Proof.
  assert (forall x y, parseCustomWords (x ++ 44%N :: y)
                      = parseCustomWords x ∪ parseCustomWords y) as Hu.
  { intros x y. unfold parseCustomWords, parseCustomWords_list.
    rewrite split_on_app, map_app, List.filter_app.
    apply list_to_set_app_L. }
  split; [apply Hu|]. split.
  - rewrite !Hu. apply (comm_L (∪)).
  - rewrite Hu. apply (idemp_L (∪)).
Qed.

(** X15: a custom word is never empty and is its own lowercase form; a
    list made of commas and white space only has no custom word. *)
Theorem parseCustomWords_entries (raw : jsstring) :
  (forall s, s ∈ parseCustomWords raw -> s <> [] /\ toLowerCase s = s)
  /\ (forallb (fun c => is_space c || (c =? 44)%N) raw = true ->
      parseCustomWords raw = ∅).
Proof.
  split.
  - intros s Hs. apply parseCustomWords_elem in Hs as (Hne & word & _ & ->).
    split; [exact Hne|apply toLowerCase_idemp].
  - intros Hraw. apply set_eq. intros s. split; [|set_solver].
    intros Hs. apply parseCustomWords_elem in Hs as (Hne & word & Hw & ->).
    exfalso. apply Hne. rewrite trim_spaces; [apply toLowerCase_empty|].
    apply forallb_forall. intros c Hc.
    apply list_elem_of_In in Hw.
    destruct (split_on_units 44 raw word c Hw Hc) as [Hin Hsep].
    rewrite forallb_forall in Hraw. specialize (Hraw c Hin).
    apply orb_prop in Hraw as [Hsp|Hcomma]; [exact Hsp|].
    apply N.eqb_eq in Hcomma. contradiction.
Qed.

End CustomWordsProofs.

(** ** The allowlist: proofs *)

Lemma endsWith_spec (s t : jsstring) :
  endsWith s t = true <-> exists p, s = p ++ t.
Proof.
  unfold endsWith. rewrite andb_true_iff, Nat.leb_le, bool_decide_eq_true.
  split.
  - intros [Hle Hd]. exists (take (length s - length t) s).
    rewrite <- (take_drop (length s - length t) s) at 1. f_equal. exact Hd.
  - intros [p ->]. rewrite length_app. split; [lia|].
    replace (length p + length t - length t) with (length p) by lia.
    apply drop_app_length.
Qed.

Lemma host_matches_spec (hostname entry : jsstring) :
  host_matches hostname entry = true <->
  hostname = entry \/ exists sub, hostname = sub ++ str "." ++ entry.
Proof.
  unfold host_matches.
  rewrite orb_true_iff, bool_decide_eq_true, endsWith_spec. reflexivity.
Qed.

Lemma allowlist_entries_blank (allowlist : jsstring) :
  forallb is_space allowlist = true -> allowlist_entries allowlist = [].
Proof.
  intros Hblank. unfold allowlist_entries.
  assert (forall w, In w (map trim (split_on 10 allowlist)) -> w = []) as Hall.
  { intros w Hw. apply in_map_iff in Hw as (w0 & <- & Hw0).
    apply trim_spaces, forallb_forall. intros c Hc.
    destruct (split_on_units 10 allowlist w0 c Hw0 Hc) as [Hin _].
    rewrite forallb_forall in Hblank. auto. }
  induction (map trim (split_on 10 allowlist)) as [|w l IH]; [reflexivity|].
  simpl. rewrite (Hall w) by (left; reflexivity). simpl.
  apply IH. intros w' Hw'. apply Hall. right. exact Hw'.
Qed.

(** X16: a host is allowed exactly when the allowlist has no entry, or
    when the host is one of its entries or ends with a dot followed by one
    of them; an allowlist of white space only allows every host. *)
Theorem isAllowedForHost_spec (hostname allowlist : jsstring) :
  (isAllowedForHost hostname allowlist = true <->
   allowlist_entries allowlist = []
   \/ exists entry, entry ∈ allowlist_entries allowlist
        /\ (hostname = entry
            \/ exists sub, hostname = sub ++ str "." ++ entry))
  /\ (forallb is_space allowlist = true ->
      isAllowedForHost hostname allowlist = true).
Proof.
  assert (isAllowedForHost hostname allowlist = true <->
   allowlist_entries allowlist = []
   \/ exists entry, entry ∈ allowlist_entries allowlist
        /\ (hostname = entry
            \/ exists sub, hostname = sub ++ str "." ++ entry)) as Hspec.
  { unfold isAllowedForHost. destruct allowlist as [|c allowlist].
    - simpl. split; [left; reflexivity|reflexivity].
    - cbn [truthy negb].
      destruct (allowlist_entries (c :: allowlist)) as [|e entries] eqn:He.
      + simpl. split; [left; reflexivity|reflexivity].
      + cbn [length Nat.eqb]. rewrite existsb_exists. split.
        * intros (entry & Hin & Hm). right. exists entry.
          split; [apply list_elem_of_In, Hin|apply host_matches_spec, Hm].
        * intros [Hnil|(entry & Hin & Hm)]; [discriminate|].
          exists entry.
          split; [apply list_elem_of_In, Hin|apply host_matches_spec, Hm]. }
  split; [exact Hspec|].
  intros Hblank. apply Hspec. left. apply allowlist_entries_blank, Hblank.
Qed.

Section AllowlistProofs.
Variable URL_hostname : jsstring -> option jsstring.

(** X17: for a tab whose URL parses, the background script allows the tab
    exactly when the content script allows the host of the URL; a tab with
    no URL or an empty one is allowed; with an allowlist that is not empty,
    a URL that does not parse is refused, also when the allowlist has no
    entry. *)
Theorem isAllowlisted_agrees (url allowlist : jsstring) :
  (forall hostname, url <> [] -> URL_hostname url = Some hostname ->
     isAllowlisted URL_hostname (Some url) allowlist
     = isAllowedForHost hostname allowlist)
  /\ isAllowlisted URL_hostname None allowlist = true
  /\ isAllowlisted URL_hostname (Some []) allowlist = true
  /\ (url <> [] -> allowlist <> [] -> URL_hostname url = None ->
      isAllowlisted URL_hostname (Some url) allowlist = false).
Proof.
  split; [|split; [reflexivity|split; [reflexivity|]]].
  - intros hostname Hurl Hhost. unfold isAllowlisted, isAllowedForHost.
    destruct url as [|c url]; [contradiction|]. cbn [truthy negb].
    rewrite Hhost. reflexivity.
  - intros Hurl Hal Hhost. unfold isAllowlisted.
    destruct url as [|c url]; [contradiction|].
    destruct allowlist as [|d allowlist]; [contradiction|].
    cbn [truthy negb]. rewrite Hhost. reflexivity.
Qed.

End AllowlistProofs.

(** ** Bounds of the bigram score *)

Lemma Rsum_bounds {A} (f : A -> R) (lo hi : R) (l : list A) :
  (forall x, In x l -> (lo <= f x <= hi)%R) ->
  (INR (length l) * lo <= Rsum (map f l) <= INR (length l) * hi)%R.
Proof.
  induction l as [|x l IH]; intros Hf.
  - simpl. lra.
  - cbn [length map Rsum]. rewrite S_INR.
    specialize (IH (fun y Hy => Hf y (or_intror Hy))).
    specialize (Hf x (or_introl eq_refl)). lra.
Qed.

Section ScoreBounds.
Context `{Runtime}.

(** X18: the bigram score of a word lies between w * lo and w * hi when
    the penalty -1.5 and all entries of the table lie between lo and hi,
    w being the number of two-character windows of the lowercased word:
    n - 1 for a word of n >= 1 characters, none for the empty word, whose
    score is 0; without any entry in the table the score is -1.5 * w; and
    the score does not depend on the case of the word. *)
Theorem scoreWord_bounds (word : jsstring) (bs : gmap jsstring R) (lo hi : R)
    (Hpenalty : (lo <= -1.5 <= hi)%R)
    (Hentries : forall k v, bs !! k = Some v -> (lo <= v <= hi)%R) :
  (INR (length (windows (toLowerCase word))) * lo <= scoreWord word bs
   <= INR (length (windows (toLowerCase word))) * hi)%R
  /\ scoreWord word ∅
     = (INR (length (windows (toLowerCase word))) * -1.5)%R
  /\ (toLowerCase word <> [] ->
      S (length (windows (toLowerCase word))) = length (toLowerCase word))
  /\ (toLowerCase word = [] ->
      length (windows (toLowerCase word)) = 0 /\ scoreWord word bs = 0%R)
  /\ scoreWord (toLowerCase word) bs = scoreWord word bs.
Proof.
  split; [|split; [|split; [|split]]].
  - rewrite scoreWord_sum. unfold bigramLogScore_spec. apply Rsum_bounds.
    intros w _. unfold window_score.
    destruct (bs !! w) as [v|] eqn:Hv; [eapply Hentries, Hv|exact Hpenalty].
  - rewrite scoreWord_sum. unfold bigramLogScore_spec.
    pose proof (Rsum_bounds (window_score ∅) (-1.5) (-1.5)
                  (windows (toLowerCase word))) as Hb.
    apply Rle_antisym; apply Hb; intros w _; unfold window_score;
      rewrite lookup_empty; lra.
  - intros Hne. rewrite windows_length.
    destruct (toLowerCase word); [contradiction|simpl; lia].
  - intros Hnil. rewrite scoreWord_sum, Hnil. split; reflexivity.
  - rewrite !scoreWord_sum, toLowerCase_idemp. reflexivity.
Qed.

End ScoreBounds.

Lemma scoreWord_bounds_witness :
  (-2 <= -1.5 <= 0)%R
  /\ (forall k v, ({[ str "he" := (-0.5)%R ]} : gmap jsstring R) !! k = Some v ->
                  (-2 <= v <= 0)%R)
  /\ (INR (length (windows (@toLowerCase latin1 (str "help")))) * -2
      <= @scoreWord latin1 (str "help") {[ str "he" := (-0.5)%R ]} <=
      INR (length (windows (@toLowerCase latin1 (str "help")))) * 0)%R.
Proof.
  assert (-2 <= -1.5 <= 0)%R as Hp by lra.
  assert (forall k v, ({[ str "he" := (-0.5)%R ]} : gmap jsstring R) !! k = Some v ->
                      (-2 <= v <= 0)%R) as He.
  { intros k v Hk. apply lookup_singleton_Some in Hk as [_ <-]. lra. }
  split; [exact Hp|]. split; [exact He|].
  exact (proj1 (@scoreWord_bounds latin1 (str "help") _ (-2) 0 Hp He)).
Defined.

(** ** The word at the caret: proofs *)

Lemma code_points_cons (h l : N) (t : jsstring) :
  code_points (h :: l :: t) =
  if is_high_surrogate h && is_low_surrogate l
  then [h; l] :: code_points t
  else [h] :: code_points (l :: t).
Proof. reflexivity. Qed.

Lemma concat_code_points (s : jsstring) : concat (code_points s) = s.
Proof.
  enough (forall n s, length s <= n -> concat (code_points s) = s) as Hn
    by (apply (Hn (length s)); lia).
  clear s. induction n as [|n IH]; intros s Hlen.
  - destruct s; [reflexivity|simpl in Hlen; lia].
  - destruct s as [|h [|l t]]; try reflexivity.
    rewrite code_points_cons.
    destruct (is_high_surrogate h && is_low_surrogate l);
      rewrite concat_cons, IH by (simpl in *; lia); reflexivity.
Qed.

Lemma take_while_split {A} (f : A -> bool) (l : list A) :
  exists rest, l = take_while f l ++ rest /\ Forall (fun x => f x = true) (take_while f l).
Proof.
  induction l as [|x l (rest & Hl & Hf)]; simpl.
  - exists []. split; [reflexivity|constructor].
  - destruct (f x) eqn:Hx.
    + exists rest. split; [simpl; f_equal; exact Hl|constructor; assumption].
    + exists (x :: l). split; [reflexivity|constructor].
Qed.

Section WordsProofs.
Variable is_letter : jsstring -> bool.

Lemma match_letters_start_prefix (text : jsstring) :
  exists run rest,
    default [] (match_letters_start is_letter text) = concat run
    /\ text = concat run ++ rest
    /\ Forall (fun cp => is_letter cp = true) run.
Proof.
  unfold match_letters_start.
  destruct (take_while_split is_letter (code_points text)) as (rest & Hs & Hf).
  exists (take_while is_letter (code_points text)), (concat rest).
  split; [|split; [|exact Hf]].
  - destruct (take_while is_letter (code_points text)); reflexivity.
  - rewrite <- concat_app, <- Hs. symmetry. apply concat_code_points.
Qed.

Lemma match_letters_end_suffix (text : jsstring) :
  exists before run,
    default [] (match_letters_end is_letter text) = concat run
    /\ text = before ++ concat run
    /\ Forall (fun cp => is_letter cp = true) run.
Proof.
  unfold match_letters_end.
  destruct (take_while_split is_letter (rev (code_points text)))
    as (rest & Hs & Hf).
  exists (concat (rev rest)), (rev (take_while is_letter (rev (code_points text)))).
  split; [|split].
  - destruct (rev (take_while is_letter (rev (code_points text)))); reflexivity.
  - rewrite <- concat_app, <- rev_app_distr, <- Hs, rev_involutive.
    symmetry. apply concat_code_points.
  - apply Forall_rev, Hf.
Qed.

(** X19: in an input whose caret is inside the value, the word at the
    caret is the text of the value between [start] and [end]; the caret is
    between the two; the word is made of letters only; and replacing the
    range by a suggestion, as [applySuggestion] does, changes the word and
    nothing else. *)
Theorem getWordFromInput_range (target : InputTarget)
    (Hcaret : default 0 (selectionStart target)
              <= length (default [] (value target))) :
  let v := default [] (value target) in
  let position := default 0 (selectionStart target) in
  let d := getWordFromInput is_letter target in
  start d <= position /\ position <= end_ d /\ end_ d <= length v
  /\ word d = slice (start d) (end_ d) v
  /\ (exists run, word d = concat run
                  /\ Forall (fun cp => is_letter cp = true) run)
  /\ exists before after,
       v = before ++ word d ++ after
       /\ length before = start d
       /\ forall suggestion,
            setRangeText v suggestion (start d) (end_ d)
            = before ++ suggestion ++ after.
Proof.
  intros v position d. subst d. unfold getWordFromInput.
  fold v. fold position. fold v in Hcaret. fold position in Hcaret.
  clearbody v position.
  unfold slice, slice_from. rewrite Nat.sub_0_r, drop_0.
  destruct (match_letters_end_suffix (take position v))
    as (before & runl & Hl & Hleft & Hfl).
  destruct (match_letters_start_prefix (drop position v))
    as (runr & after & Hr & Hright & Hfr).
  rewrite Hl, Hr. cbn [word start end_].
  assert (v = before ++ concat runl ++ concat runr ++ after) as Hv.
  { rewrite <- (take_drop position v) at 1.
    rewrite Hleft at 1. rewrite Hright at 1. rewrite <- app_assoc. reflexivity. }
  assert (length before + length (concat runl) = position) as Hpos.
  { rewrite <- length_app, <- Hleft, length_take. lia. }
  assert (position - length (concat runl) = length before) as Hstart by lia.
  rewrite Hstart.
  split; [lia|]. split; [lia|]. split; [|split; [|split]].
  - rewrite Hv. rewrite !length_app. lia.
  - rewrite Hv. rewrite drop_app_length.
    replace (position + length (concat runr) - length before)
      with (length (concat runl ++ concat runr))
      by (rewrite length_app; lia).
    rewrite app_assoc. rewrite take_app_length. reflexivity.
  - exists (runl ++ runr). split; [symmetry; apply concat_app|].
    apply Forall_app. split; assumption.
  - exists before, after. split; [rewrite <- app_assoc; exact Hv|].
    split; [reflexivity|]. intros suggestion. unfold setRangeText.
    rewrite Hv at 1. rewrite take_app_length. do 2 f_equal.
    rewrite Hv.
    replace (position + length (concat runr))
      with (length (before ++ concat runl ++ concat runr))
      by (rewrite !length_app; lia).
    replace (before ++ concat runl ++ concat runr ++ after)
      with ((before ++ concat runl ++ concat runr) ++ after)
      by (rewrite <- !app_assoc; reflexivity).
    apply drop_app_length.
Qed.

End WordsProofs.

(** ** The first script and the second *)

Lemma V1_letters_subset (c : jsstring) :
  In c V1.letters_split -> In c letters_split.
Proof.
  unfold V1.letters_split, letters_split, letters. fold V1.letters.
  rewrite map_app. intros Hc. apply in_or_app. left. exact Hc.
Qed.

Section V1Proofs.
Context `{Runtime}.

(** X20: the second script extends the first: without custom words its
    ranker returns what the ranker of the first script returns, and every
    candidate that the first script generates is a candidate of the
    second. *)
Theorem V1_extended (token word : jsstring) (candidates : list jsstring)
    (model : Model) :
  V1.rankCandidates token candidates model
  = rankCandidates token candidates model ∅
  /\ forall c, c ∈ V1.editDistanceOne word -> c ∈ editDistanceOne word.
Proof.
  split.
  - unfold V1.rankCandidates, rankCandidates, rank_scored. do 3 f_equal.
    assert (forall scored c,
              V1.rank_step model scored c = rank_step model ∅ scored c) as Hstep.
    { intros scored c. unfold V1.rank_step, rank_step, has.
      rewrite (bool_decide_eq_false_2 (c ∈ (∅ : gset jsstring)))
        by set_solver.
      rewrite orb_false_r. reflexivity. }
    generalize (@nil Scored).
    induction candidates as [|c l IH]; intros acc; simpl; [reflexivity|].
    rewrite Hstep. apply IH.
  - intros c. unfold V1.editDistanceOne, editDistanceOne.
    rewrite !new_Set_elem, !list_elem_of_In, !in_app_iff.
    intros [Hd|[Ht|[Hr|Hi]]]; auto.
    + right. right. left. unfold V1.replaces, replaces in *.
      apply in_flat_map in Hr as ([l r] & Hs & Hc). apply in_flat_map.
      exists (l, r). split; [exact Hs|].
      apply in_map_iff in Hc as (ch & <- & Hch).
      apply in_map_iff. exists ch.
      split; [reflexivity|apply V1_letters_subset, Hch].
    + right. right. right. unfold V1.inserts, inserts in *.
      apply in_flat_map in Hi as ([l r] & Hs & Hc). apply in_flat_map.
      exists (l, r). split; [exact Hs|].
      apply in_map_iff in Hc as (ch & <- & Hch).
      apply in_map_iff. exists ch.
      split; [reflexivity|apply V1_letters_subset, Hch].
Qed.

End V1Proofs.

(** ** Runs for the properties above *)

Lemma loadModel_memoized_witness :
  @loadModel latin1 env_a (str "en-US") initial_state
  = (loaded defaultOptions, Fulfilled model_a)
  /\ @loadModel latin1 env_offline (str "fr-FR") (loaded defaultOptions)
     = (loaded defaultOptions, Fulfilled model_a).
Proof.
  pose proof (loadModel_env_a defaultOptions eq_refl) as Hload.
  split; [exact Hload|].
  destruct (@loadModel_memoized latin1 env_a env_offline (str "en-US")
              (str "fr-FR") initial_state (loaded defaultOptions)
              (Fulfilled model_a) Hload) as (_ & _ & Hother).
  apply Hother; discriminate.
Defined.

Lemma run_space :
  @suggestCorrections latin1 env_a (Some (str " ")) initial_state
  = (loaded defaultOptions,
     Fulfilled {| isCorrect := false; suggestions := [str "a"] |}).
Proof. vm_compute. reflexivity. Qed.

Lemma suggestCorrections_idempotent_witness :
  @suggestCorrections latin1 env_a (Some (str " ")) initial_state
  = (loaded defaultOptions,
     Fulfilled {| isCorrect := false; suggestions := [str "a"] |})
  /\ @suggestCorrections latin1 env_a (Some (str " ")) (loaded defaultOptions)
     = (loaded defaultOptions,
        Fulfilled {| isCorrect := false; suggestions := [str "a"] |}).
Proof.
  split; [exact run_space|].
  exact (@suggestCorrections_idempotent latin1 env_a (Some (str " "))
           initial_state (loaded defaultOptions) _ run_space).
Defined.

Lemma suggestCorrections_storage_free_witness :
  enabled (currentOptions initial_state) = true
  /\ @suggestCorrections latin1
       {| storage_sync_get := Some options_off;
          fetch_json := fetch_json env_a |}
       (Some (str " ")) initial_state
     = @suggestCorrections latin1 env_a (Some (str " ")) initial_state.
Proof.
  split; [reflexivity|].
  exact (proj1 (@suggestCorrections_storage_free latin1 env_a
                  (Some options_off) (Some (str " ")) initial_state eq_refl)).
Defined.

Lemma cache_lowercase_initial : @cache_lowercase latin1 initial_state.
Proof. intros url model Hm. simpl in Hm. rewrite lookup_empty in Hm. discriminate. Qed.

Lemma onMessage_cache_lowercase_witness :
  @cache_lowercase latin1 initial_state
  /\ @cache_lowercase latin1
       (fst (@onMessage latin1 env_a (Some message_helo) initial_state)).
Proof.
  split; [exact cache_lowercase_initial|].
  exact (@onMessage_cache_lowercase latin1 env_a (Some message_helo)
           initial_state cache_lowercase_initial).
Defined.

Lemma onMessage_response_shape_witness :
  snd (@onMessage latin1 env_a (Some message_space) initial_state)
  = Some {| res_token := Some (str " "); res_isCorrect := false;
            res_suggestions := [str "a"] |}
  /\ length [str "a"] <= 5
  /\ NoDup [str "a"]
  /\ (false = true <-> [str "a"] = [])
  /\ forall s, s ∈ [str "a"] ->
       exists token, Some (str " ") = Some token
                     /\ s ∈ editDistanceOne (@toLowerCase latin1 token).
Proof.
  assert (snd (@onMessage latin1 env_a (Some message_space) initial_state)
          = Some {| res_token := Some (str " "); res_isCorrect := false;
                    res_suggestions := [str "a"] |}) as Hr
    by (vm_compute; reflexivity).
  split; [exact Hr|].
  destruct (@onMessage_response_shape latin1 env_a message_space
              initial_state _ Hr) as (_ & Hlen & Hnd & Hc & Hs).
  split; [exact Hlen|]. split; [exact Hnd|]. split; [exact Hc|exact Hs].
Defined.

Lemma suggestCorrections_flags_witness :
  get_options env_a initial_state = (initial_state, Fulfilled defaultOptions)
  /\ @toLowerCase latin1 (str " ") <> []
  /\ exists verdict,
       @suggestCorrections latin1 env_a (Some (str " ")) initial_state
       = (loaded defaultOptions, Fulfilled verdict)
       /\ (isCorrect verdict = false <->
           exists c, c ∈ editDistanceOne (@toLowerCase latin1 (str " "))
                     /\ (c ∈ dictionary model_a
                         \/ c ∈ @parseCustomWords latin1
                                  (customWords defaultOptions))).
Proof.
  pose proof (loadModel_env_a defaultOptions eq_refl) as Hload.
  assert (@toLowerCase latin1 (str " ") <> []) as Hne by discriminate.
  assert (@toLowerCase latin1 (str " ") ∉ dictionary model_a) as Hd.
  { intros Hin. apply elem_of_list_to_set, list_elem_of_In in Hin.
    vm_compute in Hin. intuition discriminate. }
  assert (@toLowerCase latin1 (str " ")
          ∉ @parseCustomWords latin1 (customWords defaultOptions)) as Hc.
  { intros Hin. apply parseCustomWords_elem in Hin as (_ & word & Hw & Heq).
    apply list_elem_of_In in Hw. vm_compute in Hw.
    destruct Hw as [<-|[]]. vm_compute in Heq. discriminate Heq. }
  split; [reflexivity|]. split; [exact Hne|].
  destruct (@suggestCorrections_flags latin1 env_a initial_state initial_state
              (loaded defaultOptions) defaultOptions model_a (str " ")
              eq_refl eq_refl Hload Hne Hd Hc) as (verdict & Hrun & Hflag & _).
  exists verdict. split; [exact Hrun|exact Hflag].
Defined.

Lemma getWordFromInput_range_witness :
  default 0 (selectionStart target_helo)
  <= length (default [] (value target_helo))
  /\ getWordFromInput ascii_letter target_helo
     = {| word := str "helo"; start := 4; end_ := 8 |}
  /\ word (getWordFromInput ascii_letter target_helo)
     = slice 4 8 (str "say helo now").
Proof.
  assert (default 0 (selectionStart target_helo)
          <= length (default [] (value target_helo))) as Hc
    by (vm_compute; lia).
  split; [exact Hc|]. split; [reflexivity|].
  destruct (getWordFromInput_range ascii_letter target_helo Hc)
    as (_ & _ & _ & Hw & _).
  exact Hw.
Defined.

(** ** A fresh load and a failed load *)

Section LoadProofs.
Context `{Runtime}.

Lemma loadModel_fresh (env : Env) (language : jsstring) (st : State)
    (data : ModelData) :
  modelCache st !! getModelUrl language = None ->
  fetch_json env (getModelUrl language) = Some data ->
  snd (loadModel env language st) = build_model data.
Proof.
  intros Hc Hf. unfold loadModel. cbv zeta. rewrite Hc. cbn [modelCache snd].
  rewrite lookup_insert_eq, Hf. reflexivity.
Qed.

(** X21: every word of the word list of a model file is accepted, in
    whatever case the file has it: with the options on and the file loaded
    for the first time, the check of a word of the list says "correct, no
    suggestions". *)
Theorem dictionary_word_accepted (env : Env) (st : State) (data : ModelData)
    (words : list jsstring) (w : jsstring)
    (Henabled : enabled (currentOptions st) = true)
    (Hfresh : modelCache st !! getModelUrl (language (currentOptions st)) = None)
    (Hfetch : fetch_json env (getModelUrl (language (currentOptions st)))
              = Some data)
    (Hwords : data_dictionary data = Some words)
    (Hword : w ∈ words) :
  snd (suggestCorrections env (Some w) st) = Fulfilled assume_correct.
Proof.
  rewrite suggestCorrections_cases. unfold get_options, resolve.
  rewrite Henabled, Henabled.
  pose proof (loadModel_fresh env _ st data Hfresh Hfetch) as Hload.
  destruct (loadModel env (language (currentOptions st)) st) as [st2 r].
  simpl in Hload. subst r. unfold build_model. rewrite Hwords. simpl.
  unfold verdict_of. cbn [dictionary].
  assert (has (list_to_set (map toLowerCase words)) (toLowerCase w) = true)
    as ->; [|rewrite orb_true_r; reflexivity].
  apply bool_decide_eq_true, elem_of_list_to_set, list_elem_of_In, in_map.
  apply list_elem_of_In, Hword.
Qed.

(** X22: a failed load is final: once the cache holds a rejected promise
    for the model file of the language, every [SPELLCHECK] message is
    answered "correct, no suggestions" and the state stays as it is,
    whatever a new fetch would give. *)
Theorem failed_load_is_final (env : Env) (st : State) (message : Message)
    (Henabled : enabled (currentOptions st) = true)
    (Hfailed : modelCache st !! getModelUrl (language (currentOptions st))
               = Some Rejected)
    (Htype : msg_type message = str "SPELLCHECK") :
  onMessage env (Some message) st
  = (st, Some {| res_token := msg_token message; res_isCorrect := true;
                 res_suggestions := [] |}).
Proof.
  unfold onMessage. rewrite Htype. cbn [negb bool_decide].
  rewrite suggestCorrections_cases. unfold get_options, resolve.
  rewrite Henabled, Henabled. unfold loadModel. cbv zeta.
  rewrite !Hfailed. reflexivity.
Qed.

End LoadProofs.

Lemma dictionary_word_accepted_witness :
  enabled (currentOptions initial_state) = true
  /\ modelCache initial_state
       !! getModelUrl (language (currentOptions initial_state)) = None
  /\ str "a" ∈ [str "a"]
  /\ snd (@suggestCorrections latin1 env_a (Some (str "a")) initial_state)
     = Fulfilled assume_correct.
Proof.
  assert (str "a" ∈ [str "a"]) as Hw by (left; reflexivity).
  split; [reflexivity|]. split; [reflexivity|]. split; [exact Hw|].
  exact (@dictionary_word_accepted latin1 env_a initial_state
           (data_of [str "a"]) [str "a"] (str "a")
           eq_refl eq_refl eq_refl eq_refl Hw).
Defined.

Lemma failed_load_is_final_witness :
  let st := fst (@onMessage latin1 env_offline (Some message_helo) initial_state) in
  enabled (currentOptions st) = true
  /\ modelCache st !! getModelUrl (language (currentOptions st)) = Some Rejected
  /\ @onMessage latin1 env_a (Some message_helo) st
     = (st, Some (fail_open (Some (str "helo")))).
Proof.
  intros st.
  assert (modelCache st !! getModelUrl (language (currentOptions st))
          = Some Rejected) as Hf by (vm_compute; reflexivity).
  split; [reflexivity|]. split; [exact Hf|].
  exact (@failed_load_is_final latin1 env_a st message_helo
           eq_refl Hf eq_refl).
Defined.
